(** * Polling design for a US presidential election: the notebook's computations

    A shallow embedding of [tutorial/source/elections.ipynb].  The notebook
    is a linear script over torch tensors, pandas frames and Pyro sample
    statements.

    Conventions of the embedding:
    - a [torch.float] tensor element is read as the real number it stands
      for, and tensor arithmetic as exact arithmetic on [R]; rounding,
      infinities and NaN are outside the model;
    - a one-dimensional tensor is a [list R], a two-dimensional one a list
      of rows;
    - a Python expression that may raise evaluates to a [result]: a value or
      the exception;
    - the three pickled data sets the notebook downloads are not part of the
      repository: they are parameters of the definitions that read them, and
      so are the quantities the notebook obtains from random draws;
    - Pyro and torch library calls ([pyro.sample], [posterior_eig], the
      distribution constructors) are recorded with their arguments; what a
      library routine computes internally is a parameter. *)

From Stdlib Require Import String Reals Lra Lia ZArith Bool Arith List.
Import ListNotations.
Open Scope R_scope.

(** ** Exceptions *)

Inductive exn : Type := IndexError | KeyError | RuntimeError.

Inductive result (A : Type) : Type :=
| Ok (a : A)
| Raised (e : exn).

Arguments Ok {A} a.
Arguments Raised {A} e.

Definition bind {A B : Type} (m : result A) (k : A -> result B) : result B :=
  match m with
  | Ok a => k a
  | Raised e => Raised e
  end.

Notation "x <- m ;; k" := (bind m (fun x => k))
  (at level 61, m at next level, right associativity).

Fixpoint traverse {A B : Type} (f : A -> result B) (l : list A) : result (list B) :=
  match l with
  | [] => Ok []
  | a :: l' => b <- f a ;; bs <- traverse f l' ;; Ok (b :: bs)
  end.

(** ** Tensors *)

Module Tensor.

Definition vec := list R.
Definition matrix := list vec.

(** [a > b] on tensor elements, as a boolean. *)
Definition Rgtb (a b : R) : bool := if Rgt_dec a b then true else false.

(** [.float()] on a boolean tensor element. *)
Definition to_float (b : bool) : R := if b then 1 else 0.

(** [.sum(-1)] of a one-dimensional tensor. *)
Definition vsum (v : vec) : R := fold_right Rplus 0 v.

(** [torch.zeros(n)] and [torch.ones(n)]. *)
Definition zeros (n : nat) : vec := repeat 0 n.
Definition ones (n : nat) : vec := repeat 1 n.

(** [c * v] for a Python number [c]. *)
Definition scale (c : R) (v : vec) : vec := map (Rmult c) v.

(** [v[i]] for a non-negative index. *)
Definition get_item (v : vec) (i : nat) : result R :=
  match nth_error v i with
  | Some x => Ok x
  | None => Raised IndexError
  end.

(** [v[i] = x] for a non-negative index. *)
Fixpoint set_item (v : vec) (i : nat) (x : R) : result vec :=
  match v, i with
  | [], _ => Raised IndexError
  | _ :: v', O => Ok (x :: v')
  | y :: v', S i' => v'' <- set_item v' i' x ;; Ok (y :: v'')
  end.

(** [row[idx]] for an index tensor [idx]. *)
Definition index_select (idx : list nat) (row : vec) : result vec :=
  traverse (get_item row) idx.

Fixpoint map2 (f : R -> R -> R) (u v : vec) : vec :=
  match u, v with
  | x :: u', y :: v' => f x y :: map2 f u' v'
  | _, _ => []
  end.

(** Element-wise binary operation on two one-dimensional tensors with
    torch's broadcasting: equal sizes, or one operand of size 1 which is
    then repeated; any other pair of sizes raises RuntimeError. *)
Definition broadcast (f : R -> R -> R) (u v : vec) : result vec :=
  if Nat.eqb (length u) (length v) then Ok (map2 f u v)
  else match u, v with
       | [x], _ => Ok (map (f x) v)
       | _, [y] => Ok (map (fun x => f x y) u)
       | _, _ => Raised RuntimeError
       end.

Definition mul := broadcast Rmult.

(** [map f (seq 0 n)]: a tensor given entry by entry. *)
Definition tabulate {A : Type} (n : nat) (f : nat -> A) : list A := map f (seq 0 n).

(** [m.transpose(0, 1)] of a matrix with [ncols] columns. *)
Definition transpose (ncols : nat) (m : matrix) : matrix :=
  tabulate ncols (fun j => map (fun row => nth j row 0) m).

(** [m.sum(0)] and [m.mean(0)] of a matrix with [ncols] columns. *)
Definition sum0 (ncols : nat) (m : matrix) : vec :=
  tabulate ncols (fun j => vsum (map (fun row => nth j row 0) m)).

Definition mean0 (ncols : nat) (m : matrix) : vec :=
  map (fun s => s / INR (length m)) (sum0 ncols m).

(** [t.sum(0)] of a three-dimensional tensor whose slices are [n] by [n]. *)
Definition sum0_3d (n : nat) (t : list matrix) : matrix :=
  tabulate n (fun i => tabulate n (fun j =>
    vsum (map (fun slice => nth j (nth i slice []) 0) t))).

(** [torch.eye(n)]. *)
Definition eye (n : nat) : matrix :=
  tabulate n (fun i => tabulate n (fun j => if Nat.eqb i j then 1 else 0)).

Definition mscale (c : R) (m : matrix) : matrix := map (scale c) m.

Fixpoint madd (a b : matrix) : matrix :=
  match a, b with
  | r :: a', s :: b' => map2 Rplus r s :: madd a' b'
  | _, _ => []
  end.

(** [torch.sigmoid] and [nn.functional.relu] on one element. *)
Definition sigmoid (x : R) : R := 1 / (1 + exp (- x)).
Definition relu (x : R) : R := Rmax 0 x.

(** The logit of a probability. *)
Definition logit (p : R) : R := ln (p / (1 - p)).

End Tensor.
Import Tensor.

(** ** Python dictionaries with string keys, in insertion order *)

Module Dict.

Definition dict (V : Type) := list (string * V).

Fixpoint get {V : Type} (d : dict V) (k : string) : result V :=
  match d with
  | [] => Raised KeyError
  | (k', v) :: d' => if String.eqb k k' then Ok v else get d' k
  end.

Fixpoint set {V : Type} (d : dict V) (k : string) (v : V) : dict V :=
  match d with
  | [] => [(k, v)]
  | (k', v') :: d' => if String.eqb k k' then (k', v) :: d' else (k', v') :: set d' k v
  end.

Definition keys {V : Type} (d : dict V) : list string := map fst d.

(** [d[k]] where [k] may be Python's [None], which is never one of the
    string keys. *)
Definition get_opt {V : Type} (d : dict V) (k : option string) : result V :=
  match k with
  | Some s => get d s
  | None => Raised KeyError
  end.

End Dict.

(** ** Pyro programs *)

Module Pyro.

(** What a sample site holds: a zero-dimensional or a one-dimensional
    tensor. *)
Inductive kind : Type := Scalar | Vector.

Definition value (k : kind) : Type :=
  match k with
  | Scalar => R
  | Vector => vec
  end.

(** The distribution objects the notebook builds, with the arguments they
    are built from. *)
Inductive dist : kind -> Type :=
| MultivariateNormal (loc : vec) (covariance_matrix : matrix) : dist Vector
  (** [dist.Binomial(total_count, logits=logits).to_event(1)]: one binomial
      per coordinate, the coordinates independent given the parameters and
      read together as one vector-valued site. *)
| BinomialEvent (total_count : vec) (logits : vec) : dist Vector
| Delta (v : R) : dist Scalar
| BernoulliLogits (logits : R) : dist Scalar.

(** torch's [logits_to_probs] for a binary outcome: the success probability
    of a distribution given by its logit. *)
Definition probs_of_logits (l : R) : R := sigmoid l.

(** Success probability of each coordinate of a binomial site. *)
Definition success_probs (logits : vec) : vec := map probs_of_logits logits.

(** A count out of [n] trials. *)
Definition binomial_count (n y : R) : Prop :=
  exists k : nat, y = INR k /\ INR k <= n.

(** The values a draw from the distribution can take. *)
Definition support {k : kind} (d : dist k) : value k -> Prop :=
  match d in dist k return value k -> Prop with
  | MultivariateNormal loc _ => fun x => length x = length loc
  | BinomialEvent n _ => fun y => Forall2 binomial_count n y
  | Delta v => fun x => x = v
  | BernoulliLogits _ => fun x => x = 0 \/ x = 1
  end.

(** A program: it returns, raises, or reaches a [pyro.sample] statement
    with a site name, a distribution and possibly an observed value, and
    goes on with the value of the site. *)
Inductive prog (A : Type) : Type :=
| Ret (a : A)
| Throw (e : exn)
| Sample (name : string) (k : kind) (fn : dist k) (obs : option (value k))
         (cont : value k -> prog A).

Arguments Ret {A} a.
Arguments Throw {A} e.
Arguments Sample {A} name k fn obs cont.

Notation "x <~ 'sample' ( n , d ) ;; p" := (Sample n _ d None (fun x => p))
  (at level 61, n at next level, d at next level, right associativity).

(** One entry of an execution trace. *)
Record site : Type := mk_site {
  site_name : string;
  site_kind : kind;
  site_fn : dist site_kind;
  site_value : value site_kind;
  is_observed : bool
}.

Definition trace := list site.

(** The trial counts and the success probabilities of a binomial site. *)
Definition binomial_parameters (s : site) : option (vec * vec) :=
  match site_fn s with
  | BinomialEvent n l => Some (n, success_probs l)
  | _ => None
  end.

(** [exec p tr r]: the program [p] can run to the outcome [r], passing the
    sample sites [tr] in order.  An unobserved site takes any value in the
    support of its distribution, an observed site its observation. *)
Inductive exec {A : Type} : prog A -> trace -> result A -> Prop :=
| exec_ret : forall a, exec (Ret a) [] (Ok a)
| exec_throw : forall e, exec (Throw e) [] (Raised e)
| exec_draw : forall name k (fn : dist k) cont x tr r,
    support fn x ->
    exec (cont x) tr r ->
    exec (Sample name k fn None cont) (mk_site name k fn x false :: tr) r
| exec_observe : forall name k (fn : dist k) cont v tr r,
    exec (cont v) tr r ->
    exec (Sample name k fn (Some v) cont) (mk_site name k fn v true :: tr) r.

(** What an execution of a program looks like, by the head of the program. *)
Definition exec_shape {A : Type} (p : prog A) (tr : trace) (r : result A) : Prop :=
  match p with
  | Ret a => tr = [] /\ r = Ok a
  | Throw e => tr = [] /\ r = Raised e
  | Sample name k fn None cont =>
      exists x tr', support fn x /\ exec (cont x) tr' r /\
                    tr = mk_site name k fn x false :: tr'
  | Sample name k fn (Some v) cont =>
      exists tr', exec (cont v) tr' r /\ tr = mk_site name k fn v true :: tr'
  end.

(** The [data] argument of [pyro.condition]: observed values by site name. *)
Definition observations := string -> forall k : kind, option (value k).

(** [pyro.condition(p, data)]: a site named in [data] becomes observed at
    the given value. *)
Fixpoint condition {A : Type} (data : observations) (p : prog A) : prog A :=
  match p with
  | Ret a => Ret a
  | Throw e => Throw e
  | Sample name k fn obs cont =>
      Sample name k fn
        (match data name k with
         | Some v => Some v
         | None => obs
         end)
        (fun x => condition data (cont x))
  end.

(** [{"alpha": v}] *)
Definition observe_alpha (v : vec) : observations :=
  fun name k =>
    if String.eqb name "alpha"
    then match k return option (value k) with
         | Vector => Some v
         | Scalar => None
         end
    else None.

End Pyro.
Import Pyro.

(** ** The classifier (cell 31) *)

Module NN.

(** [nn.Linear(in_features, out_features)]: a weight matrix with one row
    per output and a bias vector. *)
Record Linear : Type := mk_Linear {
  in_features : nat;
  out_features : nat;
  weight : matrix;
  bias : vec
}.

(** The shapes [nn.Linear.__init__] gives its parameters. *)
Definition linear_shaped (l : Linear) : Prop :=
  length (weight l) = out_features l /\
  Forall (fun row => length row = in_features l) (weight l) /\
  length (bias l) = out_features l.

Definition dot (u v : vec) : R := vsum (map2 Rmult u v).

(** Applying the layer to one input vector: [x W^T + b], RuntimeError on
    an input of the wrong size. *)
Definition linear (l : Linear) (x : vec) : result vec :=
  if Nat.eqb (length x) (in_features l)
  then Ok (map2 Rplus (map (fun row => dot x row) (weight l)) (bias l))
  else Raised RuntimeError.

Record OutcomePredictor : Type := mk_OutcomePredictor {
  h1 : Linear;
  h2 : Linear;
  h3 : Linear
}.

Section Init.

(** The state the random number generator lives in, and one draw from it. *)
Variable world : Type.
Variable draw : world -> R * world.

Fixpoint draw_vec (n : nat) (w : world) : vec * world :=
  match n with
  | O => ([], w)
  | S n' =>
      let (x, w1) := draw w in
      let (v, w2) := draw_vec n' w1 in
      (x :: v, w2)
  end.

Fixpoint draw_matrix (rows cols : nat) (w : world) : matrix * world :=
  match rows with
  | O => ([], w)
  | S rows' =>
      let (r, w1) := draw_vec cols w in
      let (m, w2) := draw_matrix rows' cols w1 in
      (r :: m, w2)
  end.

(** [nn.Linear(in_features, out_features)]: a weight of [out_features] rows
    and [in_features] columns and a bias of [out_features] entries, every
    entry drawn from the random number generator. *)
Definition nn_Linear (i o : nat) (w : world) : Linear * world :=
  let (wt, w1) := draw_matrix o i w in
  let (b, w2) := draw_vec o w1 in
  (mk_Linear i o wt b, w2).

(** [OutcomePredictor.__init__] *)
Definition OutcomePredictor_init (w : world) : OutcomePredictor * world :=
  let (l1, w1) := nn_Linear 51 64 w in
  let (l2, w2) := nn_Linear 64 64 w1 in
  let (l3, w3) := nn_Linear 64 1 w2 in
  (mk_OutcomePredictor l1 l2 l3, w3).

End Init.

Arguments draw_vec {world} draw n w.
Arguments draw_matrix {world} draw rows cols w.
Arguments nn_Linear {world} draw i o w.
Arguments OutcomePredictor_init {world} draw w.

(** The layer sizes of [OutcomePredictor.__init__]. *)
Definition is_OutcomePredictor (g : OutcomePredictor) : Prop :=
  linear_shaped (h1 g) /\ in_features (h1 g) = 51%nat /\ out_features (h1 g) = 64%nat /\
  linear_shaped (h2 g) /\ in_features (h2 g) = 64%nat /\ out_features (h2 g) = 64%nat /\
  linear_shaped (h3 g) /\ in_features (h3 g) = 64%nat /\ out_features (h3 g) = 1%nat.

Definition compute_dem_probability (g : OutcomePredictor) (y : vec) : result vec :=
  z1 <- linear (h1 g) y ;;
  z2 <- linear (h2 g) (map relu z1) ;;
  linear (h3 g) (map relu z2).

(** [t.squeeze()] followed by a use as a single number ([.item()], or the
    logits of a scalar site): a tensor of one element gives that element.
    Only a single poll outcome is modelled, for which the network's output
    has one element; on a batch [squeeze] would return a vector. *)
Definition squeeze_item (t : vec) : result R :=
  match t with
  | [x] => Ok x
  | _ => Raised RuntimeError
  end.

(** [OutcomePredictor.forward] on [y_dict["y"]]: the guide's only site, the
    winner given the poll outcome.  The call of [pyro.module], which
    registers the parameters with the parameter store, is part of the
    world. *)
Definition forward (g : OutcomePredictor) (y : vec) : prog unit :=
  match z <- compute_dem_probability g y ;; squeeze_item z with
  | Ok dem_prob => Sample "w" Scalar (BernoulliLogits dem_prob) None (fun _ => Ret tt)
  | Raised e => Throw e
  end.

End NN.
Import NN.

(** ** The notebook *)

(** The arguments of one call of [pyro.contrib.oed.eig.posterior_eig]. *)
Record eig_call : Type := mk_eig_call {
  call_model : vec -> prog (vec * R * vec);
  call_design : vec;
  observation_labels : string;
  target_labels : string;
  num_samples : Z;
  num_steps : Z;
  call_guide : OutcomePredictor;
  adam_lr : R;
  eig : bool;
  final_num_samples : option Z
}.

(** [dist.Bernoulli(p).entropy()] *)
Definition bernoulli_entropy (p : R) : R := - (p * ln p + (1 - p) * ln (1 - p)).

(** *** The candidate allocations that do not depend on sampled data (cell 35) *)

Definition poll_in_florida : result vec := set_item (zeros 51) 9 1000.
Definition poll_in_dc : result vec := set_item (zeros 51) 8 1000.

(** [(1000 // 51) * torch.ones(51)]: the quotient is Python integer floor
    division, taken before the tensor is built. *)
Definition uniform_poll : vec := scale (IZR (1000 / 51)) (ones 51).

(** ** Sample data

    Small data sets of the notebook's shapes, on which the properties below
    are exercised. *)

Module Example.

(** 51 states of one electoral vote each. *)
Definition electoral_college_votes : list nat := repeat 1%nat 51.

(** Every election tied in every state. *)
Definition frame : matrix := repeat (repeat 1 20) 51.

(** In 1976 the Democrats had twice the Republican vote in every state;
    every later election was tied. *)
Definition skewed_frame : matrix := repeat (2 :: repeat 1 19) 51.

(** 2016 tied in every state. *)
Definition test_data : matrix := repeat [1; 1] 51.

Definition dem_wins : vec := [1].

Definition swing_poll : vec := repeat 20 51.

(** A random number generator that always returns one half, and the
    network [OutcomePredictor()] builds from it. *)
Definition draw (w : unit) : R * unit := (1 / 2, w).

Definition guide : OutcomePredictor := fst (OutcomePredictor_init draw tt).

(** Library calls that ignore and keep the world, with an estimator that
    always returns [ape] and leaves the guide as it is. *)

Definition clear_param_store (w : unit) : unit := w.

Definition posterior_eig (ape : R) (c : eig_call) (w : unit)
  : R * OutcomePredictor * unit :=
  (ape, call_guide c, w).

End Example.

Section Notebook.

(** The column of [electoral_college_votes.pickle]: one vote count per
    state, in the frame's state order. *)
Variable electoral_college_votes : list nat.

(** [us_presidential_election_data_historical.pickle]: one row per state;
    its twenty columns are (1976, Democrat), (1976, Republican), ...,
    (2012, Democrat), (2012, Republican), one pair per election. *)
Variable frame : matrix.

(** [us_presidential_election_data_test.pickle]: one row per state, the
    2016 Democrat and Republican votes. *)
Variable test_data : matrix.

(** The winners returned by the 100000 prior simulations of cell 18. *)
Variable dem_wins : vec.

(** The allocation of cell 35 that is computed from the prior simulations
    of cell 21. *)
Variable swing_poll : vec.

(** Everything the library calls read and change besides their arguments:
    the random number generator, Pyro's parameter store. *)
Variable world : Type.

(** [posterior_eig]: the number it returns and the guide as training
    leaves it. *)
Variable posterior_eig : eig_call -> world -> R * OutcomePredictor * world.

(** One draw from the random number generator. *)
Variable draw : world -> R * world.

Variable clear_param_store : world -> world.

(** *** A fresh classifier (cell 31)

    [OutcomePredictor()]: the network [__init__] builds, its parameters
    freshly drawn. *)
Definition new_OutcomePredictor : world -> OutcomePredictor * world :=
  OutcomePredictor_init draw.

(** *** The electoral college (cells 2 and 5) *)

(** [torch.tensor(electoral_college_votes.values, dtype=torch.float).squeeze()] *)
Definition ec_votes_tensor : vec := map INR electoral_college_votes.

Definition dem_win_state (alpha : vec) : vec :=
  map (fun a => to_float (Rgtb a 0)) alpha.

Definition dem_electoral_college_votes (alpha : vec) : result vec :=
  mul ec_votes_tensor (dem_win_state alpha).

Definition election_winner (alpha : vec) : result R :=
  dem <- dem_electoral_college_votes alpha ;;
  Ok (to_float (Rgtb (vsum dem / vsum ec_votes_tensor) (1 / 2))).

(** *** The prior (cells 9 and 12) *)

(** [frame[2012].values]: the two columns labelled 2012, the last pair. *)
Definition results_2012 : result matrix :=
  traverse (index_select [18%nat; 19%nat]) frame.

(** [torch.log(r[..., 0] / r[..., 1])] for a frame [r] of two columns. *)
Definition log_ratio (r : matrix) : result vec :=
  traverse (fun row => d <- get_item row 0 ;; p <- get_item row 1 ;; Ok (ln (d / p))) r.

Definition prior_mean : result vec :=
  r <- results_2012 ;; log_ratio r.

(** [2 * torch.arange(10)] *)
Definition idx : list nat := map (Nat.mul 2) (seq 0 10).

(** [torch.log(as_tensor[..., idx] / as_tensor[..., idx + 1]).transpose(0, 1)]:
    one row per election, one column per state. *)
Definition logits : result matrix :=
  dem <- traverse (index_select idx) frame ;;
  rep <- traverse (index_select (map S idx)) frame ;;
  Ok (transpose (length idx)
        (map (fun dr => map2 (fun d p => ln (d / p)) (fst dr) (snd dr))
             (combine dem rep))).

(** [logits.mean(0)] *)
Definition mean (lg : matrix) : vec := mean0 (length frame) lg.

(** [logits.unsqueeze(-1) - mean]: shape (10, n, 1) against (n,), so entry
    [t, i, j] is [logits[t, i] - mean[j]]. *)
Definition centred_left (lg : matrix) : list matrix :=
  map (fun row => map (fun x => map (fun m => x - m) (mean lg)) row) lg.

(** [logits.unsqueeze(-2) - mean]: shape (10, 1, n) against (n,), so entry
    [t, 0, j] is [logits[t, j] - mean[j]]. *)
Definition centred_right (lg : matrix) : list matrix :=
  map (fun row => [map2 Rminus row (mean lg)]) lg.

(** The product of the two: (10, n, n) against (10, 1, n); the single row of
    the right operand is repeated along the middle axis. *)
Definition outer_products (lg : matrix) : list matrix :=
  map (fun ab => map (fun a_row => map2 Rmult a_row (nth 0 (snd ab) [])) (fst ab))
      (combine (centred_left lg) (centred_right lg)).

(** [(1/(logits.shape[0] - 1)) * (...).sum(0)] *)
Definition sample_covariance (lg : matrix) : matrix :=
  mscale (1 / IZR (Z.of_nat (length lg) - 1))
         (sum0_3d (length frame) (outer_products lg)).

(** [sample_covariance + 0.01 * torch.eye(sample_covariance.shape[0])] *)
Definition prior_covariance : result matrix :=
  lg <- logits ;;
  let sc := sample_covariance lg in
  Ok (madd sc (mscale (1 / 100) (eye (length sc)))).

(** *** The model (cell 14), for one allocation vector

    [pm] and [pc] are the values of the globals [prior_mean] and
    [prior_covariance].  For a one-dimensional allocation the plate stack
    is empty. *)
Definition model (pm : vec) (pc : matrix) (polling_allocation : vec)
  : prog (vec * R * vec) :=
  alpha <~ sample ("alpha", MultivariateNormal pm pc) ;;
  poll_results <~ sample ("y", BinomialEvent polling_allocation alpha) ;;
  match election_winner alpha with
  | Ok dem_win =>
      _ <~ sample ("w", Delta dem_win) ;;
      Ret (poll_results, dem_win, alpha)
  | Raised e => Throw e
  end.

(** The three sites a run of the model passes when [alpha] and [y] are the
    values of the first two and the winner is [w]. *)
Definition model_trace (pm : vec) (pc : matrix) (d alpha y : vec) (w : R)
           (alpha_observed : bool) : trace :=
  [mk_site "alpha" Vector (MultivariateNormal pm pc) alpha alpha_observed;
   mk_site "y" Vector (BinomialEvent d alpha) y false;
   mk_site "w" Scalar (Delta w) w false].

(** *** The prior entropy of the winner (cells 18 and 33) *)

(** [dem_wins.float().mean()] *)
Definition prior_w_prob : R := vsum dem_wins / INR (length dem_wins).

Definition prior_entropy : R := bernoulli_entropy prior_w_prob.

(** *** The candidate strategies (cell 35) *)

Definition poll_strategies : result (Dict.dict vec) :=
  florida <- poll_in_florida ;;
  dc <- poll_in_dc ;;
  Ok [("Florida"%string, florida); ("DC"%string, dc);
      ("Uniform"%string, uniform_poll); ("Swing"%string, swing_poll)].

(** *** Scoring the strategies (cell 37) *)

(** The variables the loop assigns. *)
Record loop_state : Type := mk_loop_state {
  eigs : Dict.dict R;
  best_strategy : option string;
  best_eig : R;
  the_world : world
}.

(** [eigs = {}] and [best_strategy, best_eig = None, 0] *)
Definition loop_init (w : world) : loop_state := mk_loop_state [] None 0 w.

(** The [posterior_eig] call of the loop body. *)
Definition scoring_call (pm : vec) (pc : matrix) (allocation : vec)
           (guide : OutcomePredictor) : eig_call :=
  mk_eig_call (model pm pc) allocation "y" "w" 10%Z 12500%Z guide (1 / 1000)
              false (Some 10000%Z).

(** One pass of the loop body; the two [print] statements only write to
    the output. *)
Definition loop_body (pm : vec) (pc : matrix) (st : loop_state)
           (item : string * vec) : result loop_state :=
  let (strategy, allocation) := item in
  let (guide, w1) := new_OutcomePredictor (the_world st) in
  let w2 := clear_param_store w1 in
  let '(ape, _, w3) := posterior_eig (scoring_call pm pc allocation guide) w2 in
  let eigs' := Dict.set (eigs st) strategy (prior_entropy - ape) in
  score <- Dict.get eigs' strategy ;;
  if Rgtb score (best_eig st)
  then Ok (mk_loop_state eigs' (Some strategy) score w3)
  else Ok (mk_loop_state eigs' (best_strategy st) (best_eig st) w3).

(** The number [posterior_eig] returns when the loop body runs on
    [allocation] from the state [st]. *)
Definition ape_of (pm : vec) (pc : matrix) (st : loop_state) (allocation : vec) : R :=
  let (guide, w1) := new_OutcomePredictor (the_world st) in
  fst (fst (posterior_eig (scoring_call pm pc allocation guide) (clear_param_store w1))).

(** [for strategy, allocation in items: ...] *)
Fixpoint loop (pm : vec) (pc : matrix) (items : Dict.dict vec) (st : loop_state)
  : result loop_state :=
  match items with
  | [] => Ok st
  | item :: rest => st' <- loop_body pm pc st item ;; loop pm pc rest st'
  end.

Definition score_strategies (pm : vec) (pc : matrix) (w : world) : result loop_state :=
  ps <- poll_strategies ;;
  loop pm pc ps (loop_init w).

(** *** Retraining on the chosen allocation (cell 40) *)

Definition retraining_call (pm : vec) (pc : matrix) (allocation : vec)
           (guide : OutcomePredictor) : eig_call :=
  mk_eig_call (model pm pc) allocation "y" "w" 10%Z 12500%Z guide (1 / 1000)
              false None.

(** The cell's results: [best_allocation], the trained [guide], and the
    world afterwards. *)
Definition retrain (pm : vec) (pc : matrix) (st : loop_state)
  : result (vec * OutcomePredictor * world) :=
  ps <- poll_strategies ;;
  best_allocation <- Dict.get_opt ps (best_strategy st) ;;
  let w1 := clear_param_store (the_world st) in
  let (guide, w2) := new_OutcomePredictor w1 in
  let '(_, trained, w3) := posterior_eig (retraining_call pm pc best_allocation guide) w2 in
  Ok (best_allocation, trained, w3).

(** *** The simulated poll (cells 42 and 43) *)

(** [torch.log(results_2016[..., 0] / results_2016[..., 1])] *)
Definition true_alpha : result vec := log_ratio test_data.

(** [pyro.condition(model, data={"alpha": true_alpha})] *)
Definition conditioned_model (pm : vec) (pc : matrix) (ta : vec)
  : vec -> prog (vec * R * vec) :=
  fun polling_allocation => condition (observe_alpha ta) (model pm pc polling_allocation).

(** *** Reading the classifier (cell 47) *)

(** [torch.sigmoid(guide.compute_dem_probability(y).squeeze().detach())],
    as the single number cell 48 prints. *)
Definition q_w (guide : OutcomePredictor) (y : vec) : result R :=
  z <- compute_dem_probability guide y ;;
  x <- squeeze_item z ;;
  Ok (sigmoid x).

(** *** The cells in sequence

    [notebook_run w0 best_allocation ta guide tr y q]: started in the world
    [w0], the notebook chooses [best_allocation], retrains [guide] on it,
    computes [ta] as [true_alpha], runs the conditioned model through the
    sites [tr] to the simulated poll [y] and reports [q] as the posterior
    probability of a Democrat win. *)
Definition notebook_run (w0 : world) (best_allocation ta : vec)
           (guide : OutcomePredictor) (tr : trace) (y : vec) (q : R) : Prop :=
  exists pm pc st w3 dem_win alpha,
    prior_mean = Ok pm /\
    prior_covariance = Ok pc /\
    score_strategies pm pc w0 = Ok st /\
    retrain pm pc st = Ok (best_allocation, guide, w3) /\
    true_alpha = Ok ta /\
    exec (conditioned_model pm pc ta best_allocation) tr (Ok (y, dem_win, alpha)) /\
    q_w guide y = Ok q.

(** *** Properties of the selection, as predicates on the final state *)

(** [best_strategy] names a strategy whose score is at least every
    recorded score. *)
Definition picks_maximum (st : loop_state) : Prop :=
  exists b vb,
    best_strategy st = Some b /\
    Dict.get (eigs st) b = Ok vb /\
    forall s v, Dict.get (eigs st) s = Ok v -> v <= vb.

(** Some recorded score is strictly positive. *)
Definition some_positive_score (st : loop_state) : Prop :=
  exists s v, Dict.get (eigs st) s = Ok v /\ v > 0.

(** [b] is the first of [ks], in order, whose score is the largest. *)
Definition first_maximum (st : loop_state) (ks : list string) (b : string) : Prop :=
  exists pre post vb,
    ks = pre ++ b :: post /\
    Dict.get (eigs st) b = Ok vb /\
    (forall s, In s pre -> exists v, Dict.get (eigs st) s = Ok v /\ v < vb) /\
    (forall s, In s post -> exists v, Dict.get (eigs st) s = Ok v /\ v <= vb).

(** What holds of the loop variables once the strategies [done] have been
    scored, in that order. *)
Definition selection_inv (done : list string) (st : loop_state) : Prop :=
  Dict.keys (eigs st) = done /\
  match best_strategy st with
  | None => best_eig st = 0 /\ forall s v, Dict.get (eigs st) s = Ok v -> v <= 0
  | Some b =>
      best_eig st > 0 /\
      exists pre post,
        done = pre ++ b :: post /\
        Dict.get (eigs st) b = Ok (best_eig st) /\
        (forall s, In s pre -> exists v, Dict.get (eigs st) s = Ok v /\ v < best_eig st) /\
        (forall s, In s post -> exists v, Dict.get (eigs st) s = Ok v /\ v <= best_eig st)
  end.

(** *** What the data description calls the sample mean and covariance *)

(** The logit of state [i] in election [t]: log of Democrat over
    Republican votes. *)
Definition spec_logit (t i : nat) : R :=
  ln (nth (2 * t) (nth i frame []) 0 / nth (2 * t + 1) (nth i frame []) 0).

(** The mean over the ten elections. *)
Definition spec_mean (i : nat) : R :=
  vsum (tabulate 10 (fun t => spec_logit t i)) / 10.

(** The unbiased empirical covariance of the ten logit vectors. *)
Definition spec_covariance (i j : nat) : R :=
  vsum (tabulate 10 (fun t =>
    (spec_logit t i - spec_mean i) * (spec_logit t j - spec_mean j))) / 9.

Definition spec_mean_vector : vec := tabulate (length frame) spec_mean.

Definition spec_covariance_matrix : matrix :=
  tabulate (length frame) (fun i => tabulate (length frame) (spec_covariance i)).

(** The prior mean as the notebook describes it: the 2012 logit alone. *)
Definition logit_2012 (i : nat) : R := spec_logit 9 i.


(** ** The cells that inspect the prior and build the swing allocation *)

(** [m.diag()] of a two-dimensional tensor: the entries [m[i, i]] up to the
    smaller of its two sizes. *)
Definition diag (m : matrix) : vec :=
  tabulate (Nat.min (length m) (length (hd [] m))) (fun i => nth i (nth i m []) 0).

(** [prior_covariance.diag().sqrt()] (cell 16) *)
Definition std (pc : matrix) : vec := map sqrt (diag pc).

(** [torch.sigmoid(prior_mean - 1.96 * std)] and
    [torch.sigmoid(prior_mean + 1.96 * std)] (cell 16) *)
Definition lower_confidence_limit (pm : vec) (pc : matrix) : result vec :=
  l <- broadcast Rminus pm (scale (196 / 100) (std pc)) ;; Ok (map sigmoid l).

Definition upper_confidence_limit (pm : vec) (pc : matrix) : result vec :=
  u <- broadcast Rplus pm (scale (196 / 100) (std pc)) ;; Ok (map sigmoid u).

(** [(alpha_samples > 0.).float().mean(0)] (cell 21): per state, the share
    of the prior samples in which the Democrats win it. *)
Definition dem_prob (n_states : nat) (alpha_samples : matrix) : vec :=
  mean0 n_states (map dem_win_state alpha_samples).

(** [correlation] (cell 24), on the values of a square frame: entry [i, j]
    of [cov] divided by [sqrt(diag[j] * diag[i])]. *)
Definition correlation (cov : matrix) : matrix :=
  map (fun rd => map2 (fun c dj => c / sqrt (dj * snd rd)) (fst rd) (diag cov))
      (combine cov (diag cov)).

(** [torch.round] on one element: to the nearest integer, a tie going to
    the even one. *)
Definition round_half_even (x : R) : R :=
  if Rlt_dec (frac_part x) (1 / 2) then IZR (Int_part x)
  else if Rlt_dec (1 / 2) (frac_part x) then IZR (Int_part x + 1)
  else if Z.even (Int_part x) then IZR (Int_part x)
  else IZR (Int_part x + 1).

(** [1. / (.5 - p).abs()] (cell 35), for the vector [p] of Democrat win
    probabilities that [prior_prob_dem.sort_values("State").values] holds.
    The entries of [p], and so of the scores and of the allocation, are in
    the order of that sorted frame, which is not the order of the states in
    the other tensors: a position says nothing about which state it is. *)
Definition swing_score (p : vec) : vec := map (fun x => 1 / Rabs (1 / 2 - x)) p.

(** [1000 * swing_score / swing_score.sum()] *)
Definition swing_poll_unrounded (p : vec) : vec :=
  map (fun s => 1000 * s / vsum (swing_score p)) (swing_score p).

(** [swing_poll.round()] *)
Definition swing_poll_from (p : vec) : vec := map round_half_even (swing_poll_unrounded p).

(** The quadratic form [v^T m v] of a square matrix. *)
Definition quadratic_form (m : matrix) (v : vec) : R :=
  dot v (map (fun row => dot row v) m).

(** The largest of 0 and the recorded scores. *)
Definition best_so_far (scores : list R) : R := fold_left Rmax scores 0.


(** * Properties *)

(** ** Tensor and dictionary lemmas *)

Lemma Rgtb_true : forall a b, a > b -> Rgtb a b = true.
Proof. intros a b H. unfold Rgtb. destruct (Rgt_dec a b); [reflexivity | contradiction]. Qed.

Lemma Rgtb_false : forall a b, a <= b -> Rgtb a b = false.
Proof. intros a b H. unfold Rgtb. destruct (Rgt_dec a b); [lra | reflexivity]. Qed.

Lemma Rgtb_spec : forall a b, Rgtb a b = true <-> a > b.
Proof.
  intros a b. unfold Rgtb. destruct (Rgt_dec a b); split; intro H;
    try reflexivity; try assumption; try discriminate; contradiction.
Qed.

Lemma to_float_cases : forall b, to_float b = 0 \/ to_float b = 1.
Proof. intros [|]; simpl; auto. Qed.

Lemma mul_same_length : forall u v,
  length u = length v -> mul u v = Ok (map2 Rmult u v).
Proof.
  intros u v H. unfold mul, broadcast. rewrite H, Nat.eqb_refl. reflexivity.
Qed.

Lemma nth_error_map2 : forall f u v i x y,
  nth_error u i = Some x -> nth_error v i = Some y ->
  nth_error (map2 f u v) i = Some (f x y).
Proof.
  intros f u. induction u as [|a u IH]; intros v i x y Hu Hv.
  - destruct i; discriminate.
  - destruct v as [|b v]; [destruct i; discriminate|].
    destruct i as [|i]; simpl in *.
    + congruence.
    + eauto.
Qed.

Lemma length_map2 : forall f u v, length u = length v -> length (map2 f u v) = length u.
Proof.
  intros f u. induction u as [|a u IH]; intros [|b v] H; simpl in *; try discriminate; auto.
Qed.

Lemma vsum_repeat : forall c n, vsum (repeat c n) = INR n * c.
Proof.
  intros c n. induction n as [|n IH].
  - simpl. lra.
  - rewrite S_INR. change (vsum (repeat c (S n))) with (c + vsum (repeat c n)).
    rewrite IH. lra.
Qed.

Lemma map_repeat : forall (f : R -> R) c n, map f (repeat c n) = repeat (f c) n.
Proof. intros f c n. induction n; simpl; congruence. Qed.

(** The Democrat votes lie between nothing and everything. *)
Lemma dem_votes_bounds : forall (ks : list nat) (alpha : vec),
  0 <= vsum (map2 Rmult (map INR ks) (map (fun a => to_float (Rgtb a 0)) alpha))
    <= vsum (map INR ks).
Proof.
  induction ks as [|k ks IH]; intros alpha.
  - simpl. lra.
  - destruct alpha as [|a alpha].
    + simpl. assert (0 <= INR k) by apply pos_INR.
      assert (0 <= vsum (map INR ks)).
      { specialize (IH []). simpl in IH. destruct ks; simpl in *; lra. }
      unfold vsum in *. lra.
    + simpl. specialize (IH alpha). unfold vsum in *.
      assert (0 <= INR k) by apply pos_INR.
      destruct (to_float_cases (Rgtb a 0)) as [E|E]; rewrite E; lra.
Qed.

Lemma half_ratio : forall dem total,
  0 <= dem <= total ->
  (dem / total > 1 / 2 <-> 2 * dem > total).
Proof.
  intros dem total [H0 H1].
  destruct (Req_dec total 0) as [Ez|Hnz].
  - subst total. assert (dem = 0) by lra. subst dem.
    unfold Rdiv at 1. rewrite Rmult_0_l. split; intro; lra.
  - assert (Hpos : 0 < total) by lra.
    assert (E : dem = dem / total * total) by (field; lra).
    split; intro H.
    + rewrite E. nra.
    + apply Rmult_lt_reg_r with (r := total); [assumption|].
      rewrite <- E. lra.
Qed.

(** ** The electoral college *)

(** C8: [election_winner] compares strictly at both levels.  On an alpha
    vector with one entry per state it returns a value, which is 0 or 1; a
    state's votes are counted for the Democrats exactly when its alpha is
    strictly positive, so a state with alpha equal to 0 adds nothing to the
    Democrat total; the result is 1 exactly when the Democrat total is
    strictly more than half of all votes, so an exact half gives 0. *)
Theorem election_winner_strict : forall alpha,
  length alpha = length electoral_college_votes ->
  exists dem w,
    dem_electoral_college_votes alpha = Ok dem /\
    election_winner alpha = Ok w /\
    (w = 0 \/ w = 1) /\
    (forall i a k, nth_error alpha i = Some a ->
                   nth_error electoral_college_votes i = Some k ->
                   nth_error dem i = Some (if Rgtb a 0 then INR k else 0)) /\
    (forall i, nth_error alpha i = Some 0 -> nth_error dem i = Some 0) /\
    (w = 1 <-> 2 * vsum dem > vsum ec_votes_tensor) /\
    (2 * vsum dem = vsum ec_votes_tensor -> w = 0).
Proof.
  intros alpha Hlen.
  assert (Hmul : dem_electoral_college_votes alpha
                 = Ok (map2 Rmult ec_votes_tensor (dem_win_state alpha))).
  { unfold dem_electoral_college_votes. apply mul_same_length.
    unfold ec_votes_tensor, dem_win_state. rewrite !length_map. symmetry. exact Hlen. }
  set (dem := map2 Rmult ec_votes_tensor (dem_win_state alpha)) in *.
  exists dem, (to_float (Rgtb (vsum dem / vsum ec_votes_tensor) (1 / 2))).
  assert (Hstate : forall i a k, nth_error alpha i = Some a ->
                   nth_error electoral_college_votes i = Some k ->
                   nth_error dem i = Some (if Rgtb a 0 then INR k else 0)).
  { intros i a k Ha Hk. unfold dem.
    rewrite (nth_error_map2 Rmult ec_votes_tensor (dem_win_state alpha) i
               (INR k) (to_float (Rgtb a 0))).
    - f_equal. destruct (Rgtb a 0); simpl; lra.
    - unfold ec_votes_tensor. rewrite nth_error_map, Hk. reflexivity.
    - unfold dem_win_state. rewrite nth_error_map, Ha. reflexivity. }
  assert (Hb : 0 <= vsum dem <= vsum ec_votes_tensor)
    by apply dem_votes_bounds.
  pose proof (half_ratio _ _ Hb) as Hhalf.
  repeat split.
  - exact Hmul.
  - unfold election_winner. rewrite Hmul. reflexivity.
  - apply to_float_cases.
  - exact Hstate.
  - intros i Ha.
    destruct (nth_error electoral_college_votes i) as [k|] eqn:Hk.
    + rewrite (Hstate i 0 k Ha Hk). rewrite Rgtb_false by lra. reflexivity.
    + apply nth_error_None in Hk. rewrite <- Hlen in Hk.
      apply nth_error_None in Hk. congruence.
  - intro Hw. apply Hhalf.
    destruct (Rgtb (vsum dem / vsum ec_votes_tensor) (1 / 2)) eqn:E.
    + apply Rgtb_spec in E. exact E.
    + simpl in Hw. lra.
  - intro H. apply Hhalf in H. rewrite Rgtb_true by exact H. reflexivity.
  - intro H. rewrite Rgtb_false; [reflexivity|].
    destruct (Rle_or_lt (vsum dem / vsum ec_votes_tensor) (1 / 2)) as [Hle|Hgt];
      [exact Hle|]. apply Hhalf in Hgt. lra.
Qed.

(** ** The uniform allocation *)

(** C10: the uniform strategy polls floor(1000 / 51) = 19 people in each
    of the 51 states, 969 in total and not 1000. *)
Theorem uniform_poll_total :
  (1000 / 51 = 19)%Z /\
  uniform_poll = repeat 19 51 /\
  length uniform_poll = 51%nat /\
  (forall i, (i < 51)%nat -> nth_error uniform_poll i = Some 19) /\
  vsum uniform_poll = 969 /\
  vsum uniform_poll <> 1000.
Proof.
  assert (Hq : (1000 / 51 = 19)%Z) by reflexivity.
  assert (Hu : uniform_poll = repeat 19 51).
  { unfold uniform_poll, scale, ones. rewrite Hq, map_repeat. f_equal. lra. }
  assert (Hs : vsum uniform_poll = 969).
  { rewrite Hu, vsum_repeat. change (INR 51) with (INR (Z.to_nat 51)).
    rewrite INR_IZR_INZ. rewrite Z2Nat.id by lia. lra. }
  split; [exact Hq|]. split; [exact Hu|]. split; [|split; [|split]].
  - rewrite Hu. apply repeat_length.
  - intros i Hi. rewrite Hu. apply nth_error_repeat. exact Hi.
  - exact Hs.
  - rewrite Hs. lra.
Qed.

(** ** Tabulated tensors *)

Lemma length_tabulate : forall (A : Type) n (f : nat -> A), length (tabulate n f) = n.
Proof. intros. unfold tabulate. rewrite length_map, length_seq. reflexivity. Qed.

Lemma tabulate_shift : forall (A : Type) n (f : nat -> A),
  tabulate (S n) f = f O :: tabulate n (fun i => f (S i)).
Proof.
  intros. unfold tabulate. simpl. f_equal. rewrite <- seq_shift, map_map. reflexivity.
Qed.

Lemma tabulate_ext : forall (A : Type) n (f g : nat -> A),
  (forall i, (i < n)%nat -> f i = g i) -> tabulate n f = tabulate n g.
Proof.
  intros A n f g H. unfold tabulate. apply map_ext_in.
  intros i Hi. apply in_seq in Hi. apply H. lia.
Qed.

Lemma map_tabulate : forall (A B : Type) (h : A -> B) n (f : nat -> A),
  map h (tabulate n f) = tabulate n (fun i => h (f i)).
Proof. intros. unfold tabulate. apply map_map. Qed.

Lemma nth_tabulate : forall (A : Type) n (f : nat -> A) i d,
  (i < n)%nat -> nth i (tabulate n f) d = f i.
Proof.
  intros A n. induction n as [|n IH]; intros f i d Hi; [lia|].
  rewrite tabulate_shift. destruct i as [|i]; simpl; [reflexivity|].
  apply (IH (fun i => f (S i))). lia.
Qed.

Lemma map_as_tabulate : forall (A B : Type) (h : A -> B) (l : list A) d,
  map h l = tabulate (length l) (fun i => h (nth i l d)).
Proof.
  intros A B h l d. induction l as [|a l IH]; [reflexivity|].
  simpl length. rewrite tabulate_shift. simpl. f_equal. exact IH.
Qed.

Lemma map2_tabulate : forall f n (g h : nat -> R),
  map2 f (tabulate n g) (tabulate n h) = tabulate n (fun i => f (g i) (h i)).
Proof.
  intros f n. induction n as [|n IH]; intros g h; [reflexivity|].
  rewrite !tabulate_shift. simpl. f_equal. apply IH.
Qed.

Lemma combine_tabulate : forall (A B : Type) n (g : nat -> A) (h : nat -> B),
  combine (tabulate n g) (tabulate n h) = tabulate n (fun i => (g i, h i)).
Proof.
  intros A B n. induction n as [|n IH]; intros g h; [reflexivity|].
  rewrite !tabulate_shift. simpl. f_equal. apply IH.
Qed.

Lemma madd_tabulate : forall n (g h : nat -> vec),
  madd (tabulate n g) (tabulate n h) = tabulate n (fun i => map2 Rplus (g i) (h i)).
Proof.
  induction n as [|n IH]; intros g h; [reflexivity|].
  rewrite !tabulate_shift. simpl. f_equal. apply IH.
Qed.

(** ** Sums *)

Lemma vsum_map_plus : forall (A : Type) (f g : A -> R) l,
  vsum (map (fun a => f a + g a) l) = vsum (map f l) + vsum (map g l).
Proof.
  intros A f g l. induction l as [|a l IH]; simpl; [lra|].
  unfold vsum in *. rewrite IH. lra.
Qed.

Lemma vsum_map_scal : forall (A : Type) c (f : A -> R) l,
  vsum (map (fun a => c * f a) l) = c * vsum (map f l).
Proof.
  intros A c f l. induction l as [|a l IH]; simpl; [lra|].
  unfold vsum in *. rewrite IH. lra.
Qed.

Lemma vsum_map_const : forall (A : Type) c (l : list A),
  vsum (map (fun _ => c) l) = INR (length l) * c.
Proof.
  intros A c l. induction l as [|a l IH]; [simpl; lra|].
  simpl length. rewrite S_INR. simpl. unfold vsum in *. rewrite IH. lra.
Qed.

(** Deviations from the mean sum to nothing. *)
Lemma vsum_centred : forall (A : Type) (f : A -> R) l,
  l <> [] ->
  vsum (map (fun a => f a - vsum (map f l) / INR (length l)) l) = 0.
Proof.
  intros A f l Hne.
  assert (Hlen : INR (length l) <> 0).
  { apply not_0_INR. destruct l; [congruence | discriminate]. }
  set (m := vsum (map f l) / INR (length l)).
  replace (map (fun a => f a - m) l) with (map (fun a => f a + (- m)) l)
    by (apply map_ext; intros; lra).
  rewrite vsum_map_plus, vsum_map_const. unfold m. field. exact Hlen.
Qed.

(** Centring the left factor at any constant gives the same sum of
    products once the right factor is centred at its mean. *)
Lemma vsum_cross_centred : forall (A : Type) (f g : A -> R) l c c',
  l <> [] ->
  vsum (map (fun a => (f a - c) * (g a - vsum (map g l) / INR (length l))) l)
  = vsum (map (fun a => (f a - c') * (g a - vsum (map g l) / INR (length l))) l).
Proof.
  intros A f g l c c' Hne.
  set (m := vsum (map g l) / INR (length l)).
  replace (map (fun a => (f a - c) * (g a - m)) l)
    with (map (fun a => (f a - c') * (g a - m) + (c' - c) * (g a - m)) l)
    by (apply map_ext; intros; lra).
  rewrite vsum_map_plus, vsum_map_scal.
  unfold m at 2. rewrite (vsum_centred A g l Hne). lra.
Qed.

(** ** Reading the frames *)

Lemma traverse_ok : forall (A B : Type) (f : A -> result B) (g : A -> B) l,
  (forall a, In a l -> f a = Ok (g a)) -> traverse f l = Ok (map g l).
Proof.
  intros A B f g l. induction l as [|a l IH]; intro H; [reflexivity|].
  simpl. rewrite (H a) by (left; reflexivity). simpl.
  rewrite IH by (intros; apply H; right; assumption). reflexivity.
Qed.

Lemma get_item_ok : forall row c,
  (c < length row)%nat -> get_item row c = Ok (nth c row 0).
Proof.
  intros row c H. unfold get_item. rewrite (nth_error_nth' row 0 H). reflexivity.
Qed.

Lemma index_select_ok : forall cols row,
  Forall (fun c => (c < length row)%nat) cols ->
  index_select cols row = Ok (map (fun c => nth c row 0) cols).
Proof.
  intros cols row H. unfold index_select. apply traverse_ok.
  intros c Hc. apply get_item_ok. rewrite Forall_forall in H. auto.
Qed.

Lemma select_columns_ok : forall cols width (m : matrix),
  Forall (fun row => length row = width) m ->
  Forall (fun c => (c < width)%nat) cols ->
  traverse (index_select cols) m = Ok (map (fun row => map (fun c => nth c row 0) cols) m).
Proof.
  intros cols width m Hm Hc. apply traverse_ok.
  intros row Hrow. apply index_select_ok.
  rewrite Forall_forall in Hm. rewrite (Hm row Hrow). exact Hc.
Qed.

Lemma log_ratio_ok : forall (m : matrix),
  Forall (fun row => length row = 2%nat) m ->
  log_ratio m = Ok (map (fun row => ln (nth 0 row 0 / nth 1 row 0)) m).
Proof.
  intros m Hm. unfold log_ratio. apply traverse_ok.
  intros row Hrow. rewrite Forall_forall in Hm. specialize (Hm row Hrow).
  rewrite !get_item_ok by lia. reflexivity.
Qed.

Lemma combine_map_same : forall (A B C : Type) (f : A -> B) (g : A -> C) l,
  combine (map f l) (map g l) = map (fun a => (f a, g a)) l.
Proof. intros A B C f g l. induction l; simpl; congruence. Qed.

(** ** The prior *)

Lemma idx_tabulate : idx = tabulate 10 (Nat.mul 2).
Proof. reflexivity. Qed.

(** The logits tensor, entry by entry. *)
Lemma logits_entries :
  Forall (fun row => length row = 20%nat) frame ->
  logits = Ok (tabulate 10 (fun t => tabulate (length frame) (fun i => spec_logit t i))).
Proof.
  intro Hwf. unfold logits.
  rewrite (select_columns_ok idx 20 frame Hwf)
    by (unfold idx; simpl; repeat constructor; lia).
  rewrite (select_columns_ok (map S idx) 20 frame Hwf)
    by (unfold idx; simpl; repeat constructor; lia).
  cbv beta iota delta [bind]. f_equal.
  rewrite combine_map_same, map_map. cbv beta iota delta [fst snd].
  unfold transpose. replace (length idx) with 10%nat by reflexivity.
  apply tabulate_ext. intros t Ht.
  rewrite map_map. rewrite (map_as_tabulate _ _ _ frame []).
  apply tabulate_ext. intros i Hi.
  rewrite idx_tabulate, !map_tabulate, map2_tabulate.
  rewrite nth_tabulate by exact Ht.
  unfold spec_logit. rewrite Nat.add_1_r. reflexivity.
Qed.

Lemma prior_mean_entries :
  Forall (fun row => length row = 20%nat) frame ->
  prior_mean = Ok (tabulate (length frame) logit_2012).
Proof.
  intro Hwf. unfold prior_mean, results_2012.
  rewrite (select_columns_ok [18; 19]%nat 20 frame Hwf)
    by (repeat constructor; lia).
  cbv beta iota delta [bind]. rewrite log_ratio_ok.
  - f_equal. rewrite map_map. rewrite (map_as_tabulate _ _ _ frame []).
    apply tabulate_ext. intros i Hi. reflexivity.
  - apply Forall_forall. intros row Hrow. apply in_map_iff in Hrow.
    destruct Hrow as [r [<- _]]. reflexivity.
Qed.

Section Covariance.

(** Ten logit vectors, given entry by entry. *)
Variable L : nat -> nat -> R.

Let n := length frame.
Let lg : matrix := tabulate 10 (fun t => tabulate n (L t)).
Let mu (j : nat) : R := vsum (map (fun t => L t j) (seq 0 10)) / INR (length (seq 0 10)).

Lemma mean_entries : mean lg = tabulate n mu.
Proof.
  unfold mean, mean0, sum0, lg. fold n. rewrite map_tabulate.
  apply tabulate_ext. intros j Hj.
  rewrite length_tabulate, map_tabulate. unfold mu, tabulate.
  rewrite length_seq. f_equal. f_equal.
  apply map_ext_in. intros t Ht. apply in_seq in Ht.
  change (map (L t) (seq 0 n)) with (tabulate n (L t)).
  apply nth_tabulate. exact Hj.
Qed.

Lemma outer_products_entries :
  outer_products lg
  = tabulate 10 (fun t => tabulate n (fun i => tabulate n (fun j =>
      (L t i - mu j) * (L t j - mu j)))).
Proof.
  unfold outer_products, centred_left, centred_right.
  rewrite mean_entries. unfold lg.
  rewrite !map_tabulate, combine_tabulate, map_tabulate.
  apply tabulate_ext. intros t Ht. cbv beta iota delta [fst snd].
  rewrite !map_tabulate. apply tabulate_ext. intros i Hi.
  rewrite map_tabulate. simpl nth. rewrite !map2_tabulate. reflexivity.
Qed.

Lemma sample_covariance_entries :
  sample_covariance lg
  = tabulate n (fun i => tabulate n (fun j =>
      vsum (map (fun t => (L t i - mu i) * (L t j - mu j)) (seq 0 10)) / 9)).
Proof.
  unfold sample_covariance. rewrite outer_products_entries.
  fold n. unfold mscale, sum0_3d, scale. rewrite map_tabulate.
  apply tabulate_ext. intros i Hi. rewrite map_tabulate.
  apply tabulate_ext. intros j Hj.
  unfold lg. rewrite length_tabulate.
  replace (1 / IZR (Z.of_nat 10 - 1)) with (/ 9) by (simpl; lra).
  rewrite map_tabulate.
  replace (tabulate 10 (fun t => nth j (nth i (tabulate n (fun i0 => tabulate n (fun j0 =>
             (L t i0 - mu j0) * (L t j0 - mu j0)))) []) 0))
    with (map (fun t => (L t i - mu j) * (L t j - mu j)) (seq 0 10)).
  - unfold mu at 2 4.
    rewrite (vsum_cross_centred nat (fun t => L t i) (fun t => L t j) (seq 0 10)
               (mu j) (mu i)) by discriminate.
    fold (mu j). lra.
  - apply map_ext. intros t. rewrite !nth_tabulate by assumption. reflexivity.
Qed.

Lemma regularised_covariance_entries :
  madd (sample_covariance lg) (mscale (1 / 100) (eye (length (sample_covariance lg))))
  = tabulate n (fun i => tabulate n (fun j =>
      vsum (map (fun t => (L t i - mu i) * (L t j - mu j)) (seq 0 10)) / 9
      + (if Nat.eqb i j then 1 / 100 else 0))).
Proof.
  rewrite sample_covariance_entries, length_tabulate.
  unfold mscale, eye, scale. rewrite map_tabulate, madd_tabulate.
  apply tabulate_ext. intros i Hi. rewrite map_tabulate, map2_tabulate.
  apply tabulate_ext. intros j Hj.
  destruct (Nat.eqb i j); lra.
Qed.

End Covariance.

Lemma prior_covariance_entries :
  Forall (fun row => length row = 20%nat) frame ->
  prior_covariance
  = Ok (tabulate (length frame) (fun i => tabulate (length frame) (fun j =>
          spec_covariance i j + (if Nat.eqb i j then 1 / 100 else 0)))).
Proof.
  intro Hwf. unfold prior_covariance. rewrite (logits_entries Hwf).
  cbv beta iota zeta delta [bind]. f_equal.
  rewrite regularised_covariance_entries.
  apply tabulate_ext. intros i Hi. apply tabulate_ext. intros j Hj.
  unfold spec_covariance, spec_mean, tabulate. rewrite length_seq.
  replace (INR 10) with 10 by (simpl; lra). reflexivity.
Qed.

(** C1, amended: for a frame of twenty columns per state, the prior mean
    is the 2012 logit of each state, log of Democrat over Republican votes
    in 2012 alone, and the prior covariance is the unbiased empirical
    covariance of the ten logit vectors of 1976-2012 with 0.01 added to
    every diagonal entry. *)
Theorem prior_from_history :
  Forall (fun row => length row = 20%nat) frame ->
  prior_mean = Ok (tabulate (length frame) logit_2012) /\
  prior_covariance
  = Ok (tabulate (length frame) (fun i => tabulate (length frame) (fun j =>
          spec_covariance i j + (if Nat.eqb i j then 1 / 100 else 0)))).
Proof.
  intro Hwf. split; [apply prior_mean_entries | apply prior_covariance_entries]; exact Hwf.
Qed.

(** ** Executions of the model *)

Lemma exec_inv : forall (A : Type) (p : prog A) tr r, exec p tr r -> exec_shape p tr r.
Proof. intros A p tr r H. destruct H; simpl; eauto. Qed.

Lemma exec_model_inv : forall pm pc d tr r,
  exec (model pm pc d) tr r ->
  exists alpha y,
    support (MultivariateNormal pm pc) alpha /\
    support (BinomialEvent d alpha) y /\
    match election_winner alpha with
    | Ok w => tr = model_trace pm pc d alpha y w false /\ r = Ok (y, w, alpha)
    | Raised e => r = Raised e
    end.
Proof.
  intros pm pc d tr r H. unfold model in H.
  apply exec_inv in H. destruct H as (alpha & tr1 & Ha & H & ->).
  apply exec_inv in H. destruct H as (y & tr2 & Hy & H & ->).
  exists alpha, y. split; [exact Ha|]. split; [exact Hy|].
  destruct (election_winner alpha) as [w|e].
  - apply exec_inv in H. destruct H as (x & tr3 & Hx & H & ->).
    apply exec_inv in H. destruct H as [-> ->].
    simpl in Hx. subst x. split; reflexivity.
  - apply exec_inv in H. destruct H as [_ ->]. reflexivity.
Qed.

Lemma exec_model_intro : forall pm pc d alpha y w,
  support (MultivariateNormal pm pc) alpha ->
  support (BinomialEvent d alpha) y ->
  election_winner alpha = Ok w ->
  exec (model pm pc d) (model_trace pm pc d alpha y w false) (Ok (y, w, alpha)).
Proof.
  intros pm pc d alpha y w Ha Hy Hw. unfold model, model_trace.
  apply exec_draw; [exact Ha|]. apply exec_draw; [exact Hy|].
  rewrite Hw. apply exec_draw; [reflexivity|]. apply exec_ret.
Qed.

Lemma exec_conditioned_model_inv : forall pm pc ta d tr r,
  exec (conditioned_model pm pc ta d) tr r ->
  exists y,
    support (BinomialEvent d ta) y /\
    match election_winner ta with
    | Ok w => tr = model_trace pm pc d ta y w true /\ r = Ok (y, w, ta)
    | Raised e => r = Raised e
    end.
Proof.
  intros pm pc ta d tr r H. unfold conditioned_model, model in H. simpl in H.
  apply exec_inv in H. simpl in H. destruct H as (tr1 & H & ->).
  apply exec_inv in H. simpl in H. destruct H as (y & tr2 & Hy & H & ->).
  exists y. split; [exact Hy|].
  destruct (election_winner ta) as [w|e]; simpl in H.
  - apply exec_inv in H. simpl in H. destruct H as (x & tr3 & Hx & H & ->).
    apply exec_inv in H. destruct H as [-> ->].
    subst x. split; reflexivity.
  - apply exec_inv in H. destruct H as [_ ->]. reflexivity.
Qed.

Lemma election_winner_total : forall alpha,
  length alpha = length electoral_college_votes ->
  exists w, election_winner alpha = Ok w.
Proof.
  intros alpha Hlen. unfold election_winner, dem_electoral_college_votes.
  rewrite mul_same_length.
  - eexists. reflexivity.
  - unfold ec_votes_tensor, dem_win_state. rewrite !length_map. symmetry. exact Hlen.
Qed.

Lemma binomial_support_zero : forall d,
  Forall (fun n => 0 <= n) d -> Forall2 binomial_count d (map (fun _ => 0) d).
Proof.
  intros d H. induction H as [|n d Hn _ IH]; simpl; constructor; [|exact IH].
  exists O. simpl. split; [reflexivity | exact Hn].
Qed.

(** C3: for an allocation of 51 per-state sample sizes, with 51 states in
    the data, the prior is computed and every run of the model draws alpha
    from the multivariate normal with mean [prior_mean] and covariance
    [prior_covariance], then draws the poll outcome from one binomial per
    state with [n_i] trials and success probability sigmoid(alpha_i), then
    sets the winner to [election_winner alpha] through a Delta site, and
    returns (poll results, winner, alpha); such runs exist. *)
Theorem model_generative_structure : forall d,
  Forall (fun row => length row = 20%nat) frame ->
  length frame = 51%nat ->
  length electoral_college_votes = 51%nat ->
  length d = 51%nat ->
  Forall (fun n => 0 <= n) d ->
  exists pm pc,
    prior_mean = Ok pm /\
    prior_covariance = Ok pc /\
    (forall tr r,
        exec (model pm pc d) tr r <->
        exists alpha y w,
          support (MultivariateNormal pm pc) alpha /\
          support (BinomialEvent d alpha) y /\
          election_winner alpha = Ok w /\
          tr = [mk_site "alpha" Vector (MultivariateNormal pm pc) alpha false;
                mk_site "y" Vector (BinomialEvent d alpha) y false;
                mk_site "w" Scalar (Delta w) w false] /\
          r = Ok (y, w, alpha)) /\
    (forall alpha i n a,
        nth_error d i = Some n -> nth_error alpha i = Some a ->
        nth_error (success_probs alpha) i = Some (sigmoid a)) /\
    (exists tr y w alpha, exec (model pm pc d) tr (Ok (y, w, alpha))).
Proof.
  intros d Hwf Hn Hec Hd Hpos.
  pose proof (prior_mean_entries Hwf) as Hpm.
  pose proof (prior_covariance_entries Hwf) as Hpc.
  set (pm := tabulate (length frame) logit_2012) in *.
  set (pc := tabulate (length frame) (fun i => tabulate (length frame) (fun j =>
               spec_covariance i j + (if Nat.eqb i j then 1 / 100 else 0)))) in *.
  exists pm, pc. split; [exact Hpm|]. split; [exact Hpc|].
  assert (Hlen : forall alpha, support (MultivariateNormal pm pc) alpha ->
                 length alpha = length electoral_college_votes).
  { intros alpha Ha. simpl in Ha. rewrite Ha. unfold pm. rewrite length_tabulate. lia. }
  split; [|split].
  - intros tr r. split.
    + intro H. apply exec_model_inv in H. destruct H as (alpha & y & Ha & Hy & H).
      destruct (election_winner_total alpha (Hlen alpha Ha)) as [w Hw].
      rewrite Hw in H. destruct H as [-> ->].
      exists alpha, y, w. repeat split; assumption.
    + intros (alpha & y & w & Ha & Hy & Hw & -> & ->).
      apply exec_model_intro; assumption.
  - intros alpha i n a _ Ha. unfold success_probs, probs_of_logits.
    rewrite nth_error_map, Ha. reflexivity.
  - assert (Ha : support (MultivariateNormal pm pc) pm) by reflexivity.
    destruct (election_winner_total pm (Hlen pm Ha)) as [w Hw].
    exists (model_trace pm pc d pm (map (fun _ => 0) d) w false), (map (fun _ => 0) d), w, pm.
    apply exec_model_intro; [exact Ha | | exact Hw].
    apply binomial_support_zero. exact Hpos.
Qed.

(** C7: [election_winner] is a function of its input, equal alpha vectors
    give equal results; and in the model the winner is determined by alpha:
    two runs that agree on alpha, whatever their allocations and poll
    outcomes, return the same winner, which is [election_winner alpha], and
    their site "w" is the same Delta distribution at that value with that
    value. *)
Theorem winner_determined_by_alpha : forall a1 a2,
  a1 = a2 ->
  election_winner a1 = election_winner a2 /\
  forall pm pc d1 d2 tr1 tr2 y1 y2 w1 w2,
    exec (model pm pc d1) tr1 (Ok (y1, w1, a1)) ->
    exec (model pm pc d2) tr2 (Ok (y2, w2, a2)) ->
    election_winner a1 = Ok w1 /\
    w1 = w2 /\
    nth_error tr1 2 = Some (mk_site "w" Scalar (Delta w1) w1 false) /\
    nth_error tr2 2 = nth_error tr1 2 /\
    length tr1 = 3%nat /\ length tr2 = 3%nat.
Proof.
  intros a1 a2 Heq. subst a2. split; [reflexivity|].
  intros pm pc d1 d2 tr1 tr2 y1 y2 w1 w2 H1 H2.
  apply exec_model_inv in H1. destruct H1 as (alpha1 & z1 & _ & _ & H1).
  apply exec_model_inv in H2. destruct H2 as (alpha2 & z2 & _ & _ & H2).
  destruct (election_winner alpha1) as [u1|e1] eqn:E1; [|discriminate].
  destruct (election_winner alpha2) as [u2|e2] eqn:E2; [|discriminate].
  destruct H1 as [-> H1]. destruct H2 as [-> H2].
  injection H1 as <- <- <-. injection H2 as <- <- <-.
  rewrite E1 in E2. injection E2 as <-.
  repeat split; try reflexivity. exact E1.
Qed.

(** ** Dictionaries *)

Lemma get_set_same : forall (V : Type) (d : Dict.dict V) k v,
  Dict.get (Dict.set d k v) k = Ok v.
Proof.
  intros V d k v. induction d as [|[k' v'] d IH]; simpl.
  - rewrite String.eqb_refl. reflexivity.
  - destruct (String.eqb k k') eqn:E; simpl; rewrite E; [reflexivity | exact IH].
Qed.

Lemma get_set_other : forall (V : Type) (d : Dict.dict V) k k' v,
  k <> k' -> Dict.get (Dict.set d k v) k' = Dict.get d k'.
Proof.
  intros V d k k' v Hne. induction d as [|[k0 v0] d IH]; simpl.
  - destruct (String.eqb k' k) eqn:E; [|reflexivity].
    apply String.eqb_eq in E. congruence.
  - destruct (String.eqb k k0) eqn:E; simpl.
    + apply String.eqb_eq in E. subst k0.
      destruct (String.eqb k' k) eqn:E'; [|reflexivity].
      apply String.eqb_eq in E'. congruence.
    + destruct (String.eqb k' k0); [reflexivity | exact IH].
Qed.

Lemma keys_set_fresh : forall (V : Type) (d : Dict.dict V) k v,
  ~ In k (Dict.keys d) -> Dict.keys (Dict.set d k v) = Dict.keys d ++ [k].
Proof.
  intros V d k v. induction d as [|[k' v'] d IH]; intro Hn; simpl; [reflexivity|].
  destruct (String.eqb k k') eqn:E.
  - apply String.eqb_eq in E. subst k'. exfalso. apply Hn. left. reflexivity.
  - simpl. f_equal. apply IH. intro H. apply Hn. right. exact H.
Qed.

Lemma get_in_keys : forall (V : Type) (d : Dict.dict V) k v,
  Dict.get d k = Ok v -> In k (Dict.keys d).
Proof.
  intros V d k v. induction d as [|[k' v'] d IH]; simpl; [discriminate|].
  destruct (String.eqb k k') eqn:E.
  - apply String.eqb_eq in E. auto.
  - intro H. right. apply IH. exact H.
Qed.

Lemma in_keys_get : forall (V : Type) (d : Dict.dict V) k,
  In k (Dict.keys d) -> exists v, Dict.get d k = Ok v.
Proof.
  intros V d k. induction d as [|[k' v'] d IH]; simpl; [contradiction|].
  intros [H|H]; destruct (String.eqb k k') eqn:E; eauto.
  subst k'. rewrite String.eqb_refl in E. discriminate.
Qed.

(** ** The scoring loop *)

Lemma loop_body_cases : forall pm pc st s a,
  exists w',
    loop_body pm pc st (s, a)
    = Ok (if Rgtb (prior_entropy - ape_of pm pc st a) (best_eig st)
          then mk_loop_state (Dict.set (eigs st) s (prior_entropy - ape_of pm pc st a))
                             (Some s) (prior_entropy - ape_of pm pc st a) w'
          else mk_loop_state (Dict.set (eigs st) s (prior_entropy - ape_of pm pc st a))
                             (best_strategy st) (best_eig st) w').
Proof.
  intros pm pc st s a. unfold loop_body, ape_of.
  destruct (new_OutcomePredictor (the_world st)) as [guide w1].
  destruct (posterior_eig (scoring_call pm pc a guide) (clear_param_store w1))
    as [[ape trained] w3].
  exists w3. simpl. rewrite get_set_same. simpl.
  destruct (Rgtb (prior_entropy - ape) (best_eig st)); reflexivity.
Qed.

Lemma loop_body_eigs : forall pm pc st s a st',
  loop_body pm pc st (s, a) = Ok st' ->
  eigs st' = Dict.set (eigs st) s (prior_entropy - ape_of pm pc st a).
Proof.
  intros pm pc st s a st' H.
  destruct (loop_body_cases pm pc st s a) as [w' E]. rewrite E in H.
  injection H as <-. destruct (Rgtb _ _); reflexivity.
Qed.

Lemma loop_total : forall pm pc items st, exists st', loop pm pc items st = Ok st'.
Proof.
  intros pm pc items. induction items as [|[s a] items IH]; intro st; cbn [loop].
  - eauto.
  - destruct (loop_body_cases pm pc st s a) as [w' E]. rewrite E. cbn [bind]. apply IH.
Qed.

Lemma loop_app : forall pm pc l1 l2 st,
  loop pm pc (l1 ++ l2) st = (st1 <- loop pm pc l1 st ;; loop pm pc l2 st1).
Proof.
  intros pm pc l1 l2. induction l1 as [|item l1 IH]; intro st; cbn [loop app bind];
    [reflexivity|].
  destruct (loop_body pm pc st item) as [st'|e]; cbn [bind]; [apply IH | reflexivity].
Qed.

Lemma loop_keeps_other_scores : forall pm pc items st st' s,
  ~ In s (Dict.keys items) ->
  loop pm pc items st = Ok st' ->
  Dict.get (eigs st') s = Dict.get (eigs st) s.
Proof.
  intros pm pc items. induction items as [|[k a] items IH]; intros st st' s Hn H;
    cbn [loop] in H; simpl in Hn.
  - injection H as <-. reflexivity.
  - destruct (loop_body pm pc st (k, a)) as [st1|e] eqn:E; cbn [bind] in H; [|discriminate].
    rewrite (IH st1 st' s) by tauto.
    rewrite (loop_body_eigs _ _ _ _ _ _ E). apply get_set_other. tauto.
Qed.

Lemma selection_inv_init : forall w, selection_inv [] (loop_init w).
Proof.
  intro w. split; [reflexivity|]. simpl. split; [reflexivity|].
  intros s v H. discriminate.
Qed.

Lemma selection_inv_bound : forall done st s v,
  selection_inv done st -> Dict.get (eigs st) s = Ok v -> v <= best_eig st.
Proof.
  intros done st s v [Hk H] Hs.
  destruct (best_strategy st) as [b|].
  - destruct H as (Hpos & pre & post & Hd & Hb & Hpre & Hpost).
    pose proof (get_in_keys _ _ _ _ Hs) as Hin. rewrite Hk, Hd in Hin.
    apply in_app_or in Hin. destruct Hin as [Hin|[Hin|Hin]].
    + destruct (Hpre s Hin) as (v' & Hv' & Hlt). rewrite Hs in Hv'.
      injection Hv' as <-. lra.
    + subst s. rewrite Hs in Hb. injection Hb as <-. lra.
    + destruct (Hpost s Hin) as (v' & Hv' & Hle). rewrite Hs in Hv'.
      injection Hv' as <-. exact Hle.
  - destruct H as [H0 Hall]. rewrite H0. eapply Hall. exact Hs.
Qed.

Lemma selection_inv_step : forall pm pc done st s a st',
  selection_inv done st ->
  ~ In s done ->
  loop_body pm pc st (s, a) = Ok st' ->
  selection_inv (done ++ [s]) st'.
Proof.
  intros pm pc done st s a st' Hinv Hfresh Hbody.
  pose proof (selection_inv_bound done st) as Hbound.
  specialize (fun s v => Hbound s v Hinv).
  destruct Hinv as [Hk H].
  destruct (loop_body_cases pm pc st s a) as [w' E]. rewrite E in Hbody.
  injection Hbody as <-.
  set (score := prior_entropy - ape_of pm pc st a) in *.
  assert (Hkeys : Dict.keys (Dict.set (eigs st) s score) = done ++ [s]).
  { rewrite keys_set_fresh by (rewrite Hk; exact Hfresh). rewrite Hk. reflexivity. }
  assert (Hold : forall s', In s' done ->
            exists v, Dict.get (Dict.set (eigs st) s score) s' = Ok v /\ v <= best_eig st).
  { intros s' Hs'. assert (s <> s') by (intro; subst; contradiction).
    rewrite get_set_other by assumption.
    destruct (in_keys_get _ (eigs st) s') as [v Hv]; [rewrite Hk; exact Hs'|].
    exists v. split; [exact Hv | eapply Hbound; exact Hv]. }
  destruct (Rgtb score (best_eig st)) eqn:Hcmp.
  - apply Rgtb_spec in Hcmp. split; [exact Hkeys|]. simpl.
    assert (Hb0 : best_eig st >= 0)
      by (destruct (best_strategy st); [destruct H; lra | destruct H as [-> _]; lra]).
    split; [lra|]. exists done, []. split; [reflexivity|].
    split; [apply get_set_same|]. split.
    + intros s' Hs'. destruct (Hold s' Hs') as (v & Hv & Hle).
      exists v. split; [exact Hv | lra].
    + intros s' [].
  - assert (Hle : score <= best_eig st).
    { destruct (Rle_or_lt score (best_eig st)) as [Hl|Hl]; [exact Hl|].
      rewrite Rgtb_true in Hcmp by lra. discriminate. }
    split; [exact Hkeys|]. simpl.
    destruct (best_strategy st) as [b|].
    + destruct H as (Hpos & pre & post & Hd & Hb & Hpre & Hpost).
      split; [exact Hpos|]. exists pre, (post ++ [s]).
      assert (Hbs : s <> b).
      { intro; subst b. apply Hfresh. rewrite Hd. apply in_or_app. right. left. reflexivity. }
      split; [rewrite Hd, <- app_assoc; reflexivity|].
      split; [rewrite get_set_other by exact Hbs; exact Hb|]. split.
      * intros s' Hs'. destruct (Hpre s' Hs') as (v & Hv & Hlt).
        exists v. split; [|exact Hlt]. rewrite get_set_other; [exact Hv|].
        intro; subst s'. apply Hfresh. rewrite Hd. apply in_or_app. left. exact Hs'.
      * intros s' Hs'. apply in_app_or in Hs'. destruct Hs' as [Hs'|[<-|[]]].
        -- destruct (Hpost s' Hs') as (v & Hv & Hlev).
           exists v. split; [|exact Hlev]. rewrite get_set_other; [exact Hv|].
           intro; subst s'. apply Hfresh. rewrite Hd. apply in_or_app. right. right. exact Hs'.
        -- exists score. split; [apply get_set_same | exact Hle].
    + destruct H as [H0 Hall]. split; [exact H0|].
      intros s' v Hv. destruct (string_dec s s') as [<-|Hne].
      * rewrite get_set_same in Hv. injection Hv as <-. lra.
      * rewrite get_set_other in Hv by exact Hne. eapply Hall. exact Hv.
Qed.

Lemma selection_inv_loop : forall pm pc items done st st',
  selection_inv done st ->
  NoDup (done ++ Dict.keys items) ->
  loop pm pc items st = Ok st' ->
  selection_inv (done ++ Dict.keys items) st'.
Proof.
  intros pm pc items. induction items as [|[s a] items IH];
    intros done st st' Hinv Hnd H; cbn [loop] in H.
  - injection H as <-. simpl. rewrite app_nil_r. exact Hinv.
  - destruct (loop_body pm pc st (s, a)) as [st1|e] eqn:E; cbn [bind] in H; [|discriminate].
    simpl Dict.keys in *.
    replace (done ++ s :: Dict.keys items) with ((done ++ [s]) ++ Dict.keys items) in *
      by (rewrite <- app_assoc; reflexivity).
    apply (IH (done ++ [s]) st1 st'); [|exact Hnd|exact H].
    eapply selection_inv_step; [exact Hinv | | exact E].
    intro Hin. rewrite <- app_assoc in Hnd. simpl in Hnd.
    apply NoDup_remove_2 in Hnd. apply Hnd. apply in_or_app. left. exact Hin.
Qed.

Lemma poll_strategies_ok :
  exists florida dc,
    poll_in_florida = Ok florida /\
    poll_in_dc = Ok dc /\
    poll_strategies
    = Ok [("Florida"%string, florida); ("DC"%string, dc);
          ("Uniform"%string, uniform_poll); ("Swing"%string, swing_poll)].
Proof.
  eexists. eexists. unfold poll_strategies, poll_in_florida, poll_in_dc.
  repeat split; reflexivity.
Qed.

Lemma strategy_names_nodup :
  NoDup ["Florida"%string; "DC"%string; "Uniform"%string; "Swing"%string].
Proof.
  repeat constructor; simpl; intuition discriminate.
Qed.

Lemma score_strategies_total : forall pm pc w0,
  exists st, score_strategies pm pc w0 = Ok st.
Proof.
  intros pm pc w0. unfold score_strategies.
  destruct poll_strategies_ok as (florida & dc & _ & _ & ->). cbn [bind].
  apply loop_total.
Qed.

Lemma selection_inv_final : forall pm pc w0 st,
  score_strategies pm pc w0 = Ok st ->
  selection_inv ["Florida"%string; "DC"%string; "Uniform"%string; "Swing"%string] st.
Proof.
  intros pm pc w0 st H. unfold score_strategies in H.
  destruct poll_strategies_ok as (florida & dc & _ & _ & E). rewrite E in H.
  cbn [bind] in H.
  apply (selection_inv_loop pm pc _ [] (loop_init w0) st (selection_inv_init w0)) in H.
  - exact H.
  - exact strategy_names_nodup.
Qed.

Lemma selection_inv_first_maximum : forall done st b,
  selection_inv done st -> best_strategy st = Some b -> first_maximum st done b.
Proof.
  intros done st b [_ H] Hb. rewrite Hb in H.
  destruct H as (_ & pre & post & Hd & Hg & Hpre & Hpost).
  exists pre, post, (best_eig st). auto.
Qed.

Lemma selection_inv_none : forall done st,
  selection_inv done st ->
  (best_strategy st = None <-> forall s v, Dict.get (eigs st) s = Ok v -> v <= 0).
Proof.
  intros done st Hinv. pose proof Hinv as [_ H]. split.
  - intro Hb. rewrite Hb in H. apply H.
  - intro Hall. destruct (best_strategy st) as [b|]; [|reflexivity].
    destruct H as (Hpos & pre & post & _ & Hg & _). specialize (Hall b _ Hg). lra.
Qed.

(** C2, amended: the loop over the four candidate allocations ends, and
    when at least one recorded score is strictly greater than 0 the selected
    [best_strategy] is a strategy whose score is greater than or equal to
    the score of every candidate. *)
Theorem selection_picks_positive_maximum : forall pm pc w0,
  exists st,
    score_strategies pm pc w0 = Ok st /\
    Dict.keys (eigs st) = ["Florida"%string; "DC"%string; "Uniform"%string; "Swing"%string] /\
    (some_positive_score st -> picks_maximum st).
Proof.
  intros pm pc w0. destruct (score_strategies_total pm pc w0) as [st Hst].
  exists st. split; [exact Hst|].
  pose proof (selection_inv_final pm pc w0 st Hst) as Hinv.
  split; [apply Hinv|].
  intros (s & v & Hs & Hv).
  destruct (best_strategy st) as [b|] eqn:Hb.
  - exists b, (best_eig st). split; [exact Hb|].
    pose proof Hinv as [_ H]. rewrite Hb in H.
    destruct H as (_ & pre & post & _ & Hg & _). split; [exact Hg|].
    intros s' v' Hs'. eapply selection_inv_bound; [exact Hinv | exact Hs'].
  - pose proof (proj1 (selection_inv_none _ _ Hinv) Hb s v Hs). lra.
Qed.

Lemma split_at_unique : forall (A : Type) (a : A) l1 l2 l1' l2',
  NoDup (l1 ++ a :: l2) ->
  l1 ++ a :: l2 = l1' ++ a :: l2' ->
  l1 = l1'.
Proof.
  intros A a l1. induction l1 as [|x l1 IH]; intros l2 l1' l2' Hnd E.
  - destruct l1' as [|y l1']; [reflexivity|]. simpl in E. injection E as <- E.
    exfalso. simpl in Hnd. apply NoDup_cons_iff in Hnd. apply (proj1 Hnd).
    rewrite E. apply in_or_app. right. left. reflexivity.
  - destruct l1' as [|y l1']; simpl in E.
    + injection E as -> E. exfalso. simpl in Hnd. apply NoDup_cons_iff in Hnd.
      apply (proj1 Hnd). apply in_or_app. right. left. reflexivity.
    + injection E as <- E. f_equal. simpl in Hnd. apply NoDup_cons_iff in Hnd.
      eapply IH; [exact (proj2 Hnd) | exact E].
Qed.

(** C9: the loop ends; if no recorded score is strictly greater than 0,
    [best_strategy] is still None and the lookup
    [poll_strategies[best_strategy]] that opens the next cell raises
    KeyError; if some score is strictly greater than 0, a strategy is
    selected, and it is the first one, in the order of the dictionary,
    whose score is the largest: every strategy before it scores strictly
    less, so of two strategies with the same score the later one is never
    the one selected, and a strategy tied with the selected one comes later
    in the dictionary. *)
Theorem selection_none_and_ties : forall pm pc w0,
  exists st,
    score_strategies pm pc w0 = Ok st /\
    ((forall s v, Dict.get (eigs st) s = Ok v -> v <= 0) ->
     best_strategy st = None /\ retrain pm pc st = Raised KeyError) /\
    (some_positive_score st ->
     exists b, best_strategy st = Some b /\
       first_maximum st
         ["Florida"%string; "DC"%string; "Uniform"%string; "Swing"%string] b) /\
    (forall b, best_strategy st = Some b ->
       first_maximum st ["Florida"%string; "DC"%string; "Uniform"%string; "Swing"%string] b) /\
    (forall pre s1 mid s2 post v,
       ["Florida"%string; "DC"%string; "Uniform"%string; "Swing"%string]
       = pre ++ s1 :: mid ++ s2 :: post ->
       Dict.get (eigs st) s1 = Ok v -> Dict.get (eigs st) s2 = Ok v ->
       best_strategy st <> Some s2) /\
    (forall b s vb, best_strategy st = Some b ->
       Dict.get (eigs st) b = Ok vb -> Dict.get (eigs st) s = Ok vb -> s <> b ->
       exists pre mid post,
         ["Florida"%string; "DC"%string; "Uniform"%string; "Swing"%string]
         = pre ++ b :: mid ++ s :: post).
Proof.
  intros pm pc w0. destruct (score_strategies_total pm pc w0) as [st Hst].
  exists st. split; [exact Hst|].
  pose proof (selection_inv_final pm pc w0 st Hst) as Hinv.
  split; [|split; [|split; [|split]]].
  - intro Hall. apply (proj2 (selection_inv_none _ _ Hinv)) in Hall. split; [exact Hall|].
    unfold retrain. destruct poll_strategies_ok as (florida & dc & _ & _ & ->).
    cbn [bind]. rewrite Hall. reflexivity.
  - intros (s & v & Hs & Hv).
    destruct (best_strategy st) as [b|] eqn:Hb.
    + exists b. split; [reflexivity|]. eapply selection_inv_first_maximum; eassumption.
    + pose proof (proj1 (selection_inv_none _ _ Hinv) Hb s v Hs). lra.
  - intros b Hb. eapply selection_inv_first_maximum; eassumption.
  - intros pre s1 mid s2 post v Hsplit H1 H2 Hb.
    destruct (selection_inv_first_maximum _ _ _ Hinv Hb)
      as (pre' & post' & vb & Hd & Hg & Hpre & _).
    rewrite H2 in Hg. injection Hg as <-.
    assert (Hpre' : pre ++ s1 :: mid = pre').
    { apply (split_at_unique string s2 (pre ++ s1 :: mid) post pre' post').
      - rewrite <- app_assoc. simpl. rewrite <- Hsplit. exact strategy_names_nodup.
      - rewrite <- app_assoc. simpl. rewrite <- Hsplit. exact Hd. }
    destruct (Hpre s1) as (v1 & Hv1 & Hlt).
    { rewrite <- Hpre'. apply in_or_app. right. left. reflexivity. }
    rewrite H1 in Hv1. injection Hv1 as <-. lra.
  - intros b s vb Hb Hgb Hgs Hne.
    destruct (selection_inv_first_maximum _ _ _ Hinv Hb)
      as (pre & post & vb' & Hd & Hg & Hpre & Hpost).
    rewrite Hgb in Hg. injection Hg as <-.
    pose proof (get_in_keys _ _ _ _ Hgs) as Hin.
    destruct Hinv as [Hk _]. rewrite Hk, Hd in Hin.
    apply in_app_or in Hin. destruct Hin as [Hin|[Hin|Hin]].
    + destruct (Hpre s Hin) as (v & Hv & Hlt). rewrite Hgs in Hv.
      injection Hv as <-. lra.
    + congruence.
    + apply in_split in Hin. destruct Hin as (mid & post' & ->).
      exists pre, mid, post'. exact Hd.
Qed.

(** C4: the score recorded for every candidate strategy is the prior
    entropy of the winner, the entropy of a Bernoulli with the prior win
    probability, a quantity fixed before the loop, minus the number that
    [posterior_eig] returns for that strategy's allocation when called with
    [eig=False] on a fresh guide. *)
Theorem recorded_eig_scores : forall pm pc w0,
  prior_entropy = bernoulli_entropy prior_w_prob /\
  exists st ps,
    score_strategies pm pc w0 = Ok st /\
    poll_strategies = Ok ps /\
    forall pre s a post,
      ps = pre ++ (s, a) :: post ->
      exists st_pre guide w1,
        loop pm pc pre (loop_init w0) = Ok st_pre /\
        new_OutcomePredictor (the_world st_pre) = (guide, w1) /\
        eig (scoring_call pm pc a guide) = false /\
        call_design (scoring_call pm pc a guide) = a /\
        Dict.get (eigs st) s
        = Ok (prior_entropy
              - fst (fst (posterior_eig (scoring_call pm pc a guide)
                                        (clear_param_store w1)))).
Proof.
  intros pm pc w0. split; [reflexivity|].
  destruct (score_strategies_total pm pc w0) as [st Hst].
  destruct poll_strategies_ok as (florida & dc & _ & _ & Hps).
  exists st. eexists. split; [exact Hst|]. split; [exact Hps|].
  intros pre s a post Hsplit.
  unfold score_strategies in Hst. rewrite Hps in Hst. cbn [bind] in Hst.
  assert (Hnd : NoDup (Dict.keys (pre ++ (s, a) :: post))).
  { rewrite <- Hsplit. exact strategy_names_nodup. }
  rewrite Hsplit, loop_app in Hst.
  destruct (loop_total pm pc pre (loop_init w0)) as [st_pre Hpre].
  rewrite Hpre in Hst. cbn [bind loop] in Hst.
  destruct (loop_body pm pc st_pre (s, a)) as [st1|e] eqn:Hbody;
    cbn [bind] in Hst; [|discriminate].
  destruct (new_OutcomePredictor (the_world st_pre)) as [guide w1] eqn:Hg.
  exists st_pre, guide, w1.
  split; [exact Hpre|]. split; [exact Hg|]. split; [reflexivity|].
  split; [reflexivity|].
  rewrite (loop_keeps_other_scores pm pc post st1 st s).
  - rewrite (loop_body_eigs _ _ _ _ _ _ Hbody), get_set_same.
    unfold ape_of. rewrite Hg. reflexivity.
  - unfold Dict.keys in Hnd. rewrite map_app in Hnd. simpl in Hnd.
    apply NoDup_remove_2 in Hnd. intro Hin. apply Hnd.
    apply in_or_app. right. exact Hin.
  - exact Hst.
Qed.

(** ** The classifier *)

Lemma bind_ok_inv : forall (A B : Type) (m : result A) (k : A -> result B) b,
  bind m k = Ok b -> exists a, m = Ok a /\ k a = Ok b.
Proof.
  intros A B m k b H. destruct m as [a|e]; [|discriminate]. exists a. auto.
Qed.



Lemma sigmoid_range : forall x, 0 < sigmoid x < 1.
Proof.
  intro x. unfold sigmoid. pose proof (exp_pos (- x)) as He.
  split.
  - apply Rdiv_lt_0_compat; lra.
  - apply Rmult_lt_reg_r with (r := 1 + exp (- x)); [lra|].
    unfold Rdiv. rewrite Rmult_assoc, Rinv_l by lra. lra.
Qed.

(** The constructor's shapes. *)
Lemma draw_vec_length : forall n w, length (fst (draw_vec draw n w)) = n.
Proof.
  induction n as [|n IH]; intro w; simpl; [reflexivity|].
  destruct (draw w) as [x w1]. specialize (IH w1).
  destruct (draw_vec draw n w1) as [v w2]. simpl in *. congruence.
Qed.

Lemma draw_matrix_shape : forall rows cols w,
  length (fst (draw_matrix draw rows cols w)) = rows /\
  Forall (fun row => length row = cols) (fst (draw_matrix draw rows cols w)).
Proof.
  induction rows as [|rows IH]; intros cols w; simpl; [split; [reflexivity | constructor]|].
  pose proof (draw_vec_length cols w) as Hr.
  destruct (draw_vec draw cols w) as [r w1]. specialize (IH cols w1).
  destruct (draw_matrix draw rows cols w1) as [m w2]. simpl in *.
  destruct IH as [Hl Hf]. split; [congruence | constructor; assumption].
Qed.

Lemma nn_Linear_shaped : forall i o w,
  linear_shaped (fst (nn_Linear draw i o w)) /\
  in_features (fst (nn_Linear draw i o w)) = i /\
  out_features (fst (nn_Linear draw i o w)) = o.
Proof.
  intros i o w. unfold nn_Linear, linear_shaped.
  pose proof (draw_matrix_shape o i w) as [Hl Hf].
  destruct (draw_matrix draw o i w) as [wt w1].
  pose proof (draw_vec_length o w1) as Hb.
  destruct (draw_vec draw o w1) as [b w2]. simpl in *. auto.
Qed.

(** A fresh [OutcomePredictor()] has the layer sizes of [__init__]. *)
Lemma new_OutcomePredictor_shaped : forall w,
  is_OutcomePredictor (fst (new_OutcomePredictor w)).
Proof.
  intro w. unfold new_OutcomePredictor, OutcomePredictor_init, is_OutcomePredictor.
  pose proof (nn_Linear_shaped 51 64 w) as (A1 & A2 & A3).
  destruct (nn_Linear draw 51 64 w) as [l1 w1].
  pose proof (nn_Linear_shaped 64 64 w1) as (B1 & B2 & B3).
  destruct (nn_Linear draw 64 64 w1) as [l2 w2].
  pose proof (nn_Linear_shaped 64 1 w2) as (C1 & C2 & C3).
  destruct (nn_Linear draw 64 1 w2) as [l3 w3]. simpl in *.
  repeat (split; [assumption|]). assumption.
Qed.



(** ** The simulated poll *)

Lemma get_item_inv : forall row c x, get_item row c = Ok x -> x = nth c row 0.
Proof.
  intros row c x H. unfold get_item in H.
  destruct (nth_error row c) as [x'|] eqn:E; [|discriminate].
  injection H as <-. symmetry. apply nth_error_nth. exact E.
Qed.

Lemma log_ratio_inv : forall (m : matrix) v,
  log_ratio m = Ok v -> v = map (fun row => ln (nth 0 row 0 / nth 1 row 0)) m.
Proof.
  unfold log_ratio. induction m as [|row m IH]; intros v H; simpl in H.
  - injection H as <-. reflexivity.
  - apply bind_ok_inv in H. destruct H as (x & Hx & H).
    apply bind_ok_inv in H. destruct H as (xs & Hxs & H). injection H as <-.
    apply bind_ok_inv in Hx. destruct Hx as (d & Hd & Hx).
    apply bind_ok_inv in Hx. destruct Hx as (p & Hp & Hx). injection Hx as <-.
    apply get_item_inv in Hd. apply get_item_inv in Hp. subst d p.
    simpl. f_equal. apply IH. exact Hxs.
Qed.

(** The log of the ratio of two positive vote counts is the logit of the
    share of the first in their sum. *)
Lemma log_ratio_is_logit_of_share : forall d p,
  0 < d -> 0 < p -> ln (d / p) = logit (d / (d + p)).
Proof.
  intros d p Hd Hp. unfold logit. f_equal. field. lra.
Qed.

Lemma retrain_inv : forall pm pc st ba guide w3,
  retrain pm pc st = Ok (ba, guide, w3) ->
  exists ps, poll_strategies = Ok ps /\ Dict.get_opt ps (best_strategy st) = Ok ba.
Proof.
  intros pm pc st ba guide w3 H. unfold retrain in H.
  apply bind_ok_inv in H. destruct H as (ps & Hps & H).
  apply bind_ok_inv in H. destruct H as (ba' & Hba & H).
  destruct (new_OutcomePredictor (clear_param_store (the_world st))) as [g w2].
  destruct (posterior_eig (retraining_call pm pc ba' g) w2) as [[ape trained] w4].
  injection H as <- _ _. exists ps. split; assumption.
Qed.

(** C6: in a run of the notebook the simulated poll comes from the model
    with alpha fixed, as an observed site, to [true_alpha], whose entry for
    a state is log(Democrat votes / Republican votes) of 2016, which for
    positive counts is the logit of the Democrat share of the two-party
    vote; the poll outcome is a draw from the binomials whose trial counts
    are the allocation chosen by the scoring loop and whose logits are
    [true_alpha]. *)
Theorem simulated_poll_from_2016 : forall w0 ba ta guide tr y q,
  notebook_run w0 ba ta guide tr y q ->
  ta = map (fun row => ln (nth 0 row 0 / nth 1 row 0)) test_data /\
  (forall i row,
      nth_error test_data i = Some row ->
      0 < nth 0 row 0 -> 0 < nth 1 row 0 ->
      nth_error ta i = Some (logit (nth 0 row 0 / (nth 0 row 0 + nth 1 row 0)))) /\
  (exists pm pc st ps w,
      prior_mean = Ok pm /\
      prior_covariance = Ok pc /\
      score_strategies pm pc w0 = Ok st /\
      poll_strategies = Ok ps /\
      Dict.get_opt ps (best_strategy st) = Ok ba /\
      exec (condition (observe_alpha ta) (model pm pc ba)) tr (Ok (y, w, ta)) /\
      tr = [mk_site "alpha" Vector (MultivariateNormal pm pc) ta true;
            mk_site "y" Vector (BinomialEvent ba ta) y false;
            mk_site "w" Scalar (Delta w) w false]) /\
  support (BinomialEvent ba ta) y.
Proof.
  intros w0 ba ta guide tr y q Hrun.
  destruct Hrun as (pm & pc & st & w3 & dw & alpha & Hpm & Hpc & Hst & Hre & Hta & Hex & _).
  unfold true_alpha in Hta. apply log_ratio_inv in Hta.
  pose proof Hex as Hex0.
  apply exec_conditioned_model_inv in Hex. destruct Hex as (y' & Hy' & Hex).
  destruct (election_winner ta) as [w|e]; [|discriminate].
  destruct Hex as [Htr Hr]. injection Hr as <- <- <-.
  destruct (retrain_inv _ _ _ _ _ _ Hre) as (ps & Hps & Hba).
  split; [exact Hta|]. split; [|split; [|exact Hy']].
  - intros i row Hrow Hd Hp. rewrite Hta.
    rewrite (map_nth_error (fun r => ln (nth 0 r 0 / nth 1 r 0)) i test_data Hrow).
    f_equal. apply log_ratio_is_logit_of_share; assumption.
  - exists pm, pc, st, ps, dw. repeat split; assumption.
Qed.

(** ** Further properties of the electoral college *)

Lemma election_winner_value : forall alpha,
  length alpha = length electoral_college_votes ->
  election_winner alpha
  = Ok (to_float (Rgtb (vsum (map2 Rmult ec_votes_tensor (dem_win_state alpha))
                        / vsum ec_votes_tensor) (1 / 2))).
Proof.
  intros alpha Hlen. unfold election_winner, dem_electoral_college_votes.
  rewrite mul_same_length; [reflexivity|].
  unfold ec_votes_tensor, dem_win_state. rewrite !length_map. symmetry. exact Hlen.
Qed.

Lemma dem_votes_monotone : forall (ks : list nat) alpha alpha',
  Forall2 Rle alpha alpha' ->
  vsum (map2 Rmult (map INR ks) (dem_win_state alpha))
  <= vsum (map2 Rmult (map INR ks) (dem_win_state alpha')).
Proof.
  intros ks alpha alpha' H. revert ks.
  induction H as [|a a' alpha alpha' Ha _ IH]; intros ks.
  - lra.
  - destruct ks as [|k ks]; simpl; [lra|]. specialize (IH ks).
    unfold vsum in *. pose proof (pos_INR k) as Hk.
    assert (to_float (Rgtb a 0) <= to_float (Rgtb a' 0)).
    { destruct (Rgtb a 0) eqn:E.
      - apply Rgtb_spec in E. rewrite Rgtb_true by lra. simpl. lra.
      - destruct (to_float_cases (Rgtb a' 0)) as [-> | ->]; simpl; lra. }
    nra.
Qed.

(** X1: raising alpha in some states never turns a Democrat win into a
    Republican one. *)
Theorem election_winner_monotone : forall alpha alpha',
  length alpha = length electoral_college_votes ->
  Forall2 Rle alpha alpha' ->
  exists w w',
    election_winner alpha = Ok w /\ election_winner alpha' = Ok w' /\ w <= w'.
Proof.
  intros alpha alpha' Hlen Hle.
  assert (Hlen' : length alpha' = length electoral_college_votes).
  { rewrite <- Hlen. symmetry. eapply Forall2_length. exact Hle. }
  rewrite (election_winner_value alpha Hlen), (election_winner_value alpha' Hlen').
  eexists. eexists. split; [reflexivity|]. split; [reflexivity|].
  pose proof (dem_votes_monotone electoral_college_votes alpha alpha' Hle) as Hmono.
  pose proof (dem_votes_bounds electoral_college_votes alpha) as Hb.
  pose proof (dem_votes_bounds electoral_college_votes alpha') as Hb'.
  fold (dem_win_state alpha) in Hb. fold (dem_win_state alpha') in Hb'.
  fold ec_votes_tensor in Hb, Hb', Hmono.
  destruct (Rgtb (vsum (map2 Rmult ec_votes_tensor (dem_win_state alpha))
                  / vsum ec_votes_tensor) (1 / 2)) eqn:E.
  - apply Rgtb_spec in E. apply (half_ratio _ _ Hb) in E.
    rewrite Rgtb_true; [simpl; lra|]. apply (half_ratio _ _ Hb'). lra.
  - destruct (to_float_cases (Rgtb (vsum (map2 Rmult ec_votes_tensor (dem_win_state alpha'))
                  / vsum ec_votes_tensor) (1 / 2))) as [-> | ->]; simpl; lra.
Qed.

(** X2: the result depends on alpha only through the signs of its
    entries: two vectors that are positive in the same states give the same
    result, whether a value or an exception. *)
Theorem election_winner_sign_only : forall alpha alpha',
  Forall2 (fun a a' => a > 0 <-> a' > 0) alpha alpha' ->
  election_winner alpha = election_winner alpha'.
Proof.
  intros alpha alpha' H.
  assert (E : dem_win_state alpha = dem_win_state alpha').
  { induction H as [|a a' alpha alpha' Ha _ IH]; [reflexivity|].
    simpl. f_equal; [|exact IH]. f_equal.
    destruct (Rgtb a 0) eqn:Ea.
    - apply Rgtb_spec in Ea. symmetry. apply Rgtb_true. apply Ha. exact Ea.
    - symmetry. apply Rgtb_false.
      destruct (Rle_or_lt a' 0) as [Hl|Hl]; [exact Hl|].
      apply Ha in Hl. rewrite Rgtb_true in Ea by exact Hl. discriminate. }
  unfold election_winner, dem_electoral_college_votes. rewrite E. reflexivity.
Qed.

(** X3: an alpha vector whose size differs from the number of states
    raises RuntimeError, unless one of the two sizes is 1, in which case
    torch broadcasts. *)
Theorem election_winner_shape_error : forall alpha,
  length alpha <> length electoral_college_votes ->
  length alpha <> 1%nat ->
  length electoral_college_votes <> 1%nat ->
  election_winner alpha = Raised RuntimeError.
Proof.
  intros alpha Hne Ha He.
  unfold election_winner, dem_electoral_college_votes, mul, broadcast.
  unfold ec_votes_tensor, dem_win_state. rewrite !length_map.
  destruct (Nat.eqb (length electoral_college_votes) (length alpha)) eqn:E.
  - apply Nat.eqb_eq in E. congruence.
  - destruct electoral_college_votes as [|k [|k' ks]]; simpl in *; try congruence;
      destruct alpha as [|a [|a' al]]; simpl in *; try congruence; reflexivity.
Qed.

Lemma dem_votes_none : forall (ks : list nat) alpha,
  Forall (fun a => a <= 0) alpha ->
  vsum (map2 Rmult (map INR ks) (dem_win_state alpha)) = 0.
Proof.
  intros ks alpha H. revert ks. induction H as [|a alpha Ha _ IH]; intros ks.
  - destruct ks; reflexivity.
  - destruct ks as [|k ks]; [reflexivity|]. simpl. rewrite Rgtb_false by exact Ha.
    specialize (IH ks). unfold vsum in *. rewrite IH. simpl. lra.
Qed.

Lemma dem_votes_all : forall (ks : list nat) alpha,
  length alpha = length ks ->
  Forall (fun a => a > 0) alpha ->
  vsum (map2 Rmult (map INR ks) (dem_win_state alpha)) = vsum (map INR ks).
Proof.
  intros ks alpha Hlen H. revert ks Hlen. induction H as [|a alpha Ha _ IH]; intros ks Hlen.
  - destruct ks; [reflexivity | discriminate].
  - destruct ks as [|k ks]; [discriminate|]. simpl. rewrite Rgtb_true by exact Ha.
    injection Hlen as Hlen. specialize (IH ks Hlen). unfold vsum in *. rewrite IH.
    simpl. lra.
Qed.

(** X4: with one entry per state, an alpha that is positive nowhere gives
    0; an alpha that is positive everywhere gives 1 as soon as there is a
    vote to win; and when no state has any vote the result is 0 whatever
    alpha is. *)
Theorem election_winner_extremes : forall alpha,
  length alpha = length electoral_college_votes ->
  (Forall (fun a => a <= 0) alpha -> election_winner alpha = Ok 0) /\
  (Forall (fun a => a > 0) alpha -> 0 < vsum ec_votes_tensor ->
   election_winner alpha = Ok 1) /\
  (vsum ec_votes_tensor = 0 -> election_winner alpha = Ok 0).
Proof.
  intros alpha Hlen. rewrite (election_winner_value alpha Hlen).
  split; [|split].
  - intro H. unfold ec_votes_tensor at 1. rewrite dem_votes_none by exact H.
    rewrite Rgtb_false; [reflexivity|]. unfold Rdiv. rewrite Rmult_0_l. lra.
  - intros H Hpos. unfold ec_votes_tensor at 1.
    rewrite dem_votes_all by assumption. fold ec_votes_tensor.
    rewrite Rgtb_true; [reflexivity|].
    replace (vsum ec_votes_tensor / vsum ec_votes_tensor) with 1 by (field; lra). lra.
  - intro Hz. pose proof (dem_votes_bounds electoral_college_votes alpha) as Hb.
    fold (dem_win_state alpha) in Hb. fold ec_votes_tensor in Hb.
    rewrite Rgtb_false; [reflexivity|].
    replace (vsum (map2 Rmult ec_votes_tensor (dem_win_state alpha))) with 0 by lra.
    unfold Rdiv. rewrite Rmult_0_l. lra.
Qed.


(** ** More on sums *)

Lemma vsum_map_ext : forall (A : Type) (f g : A -> R) l,
  (forall a, In a l -> f a = g a) -> vsum (map f l) = vsum (map g l).
Proof. intros A f g l H. f_equal. apply map_ext_in. exact H. Qed.

Lemma vsum_map_nonneg : forall (A : Type) (f : A -> R) l,
  (forall a, In a l -> 0 <= f a) -> 0 <= vsum (map f l).
Proof.
  intros A f l. induction l as [|a l IH]; intro H; simpl; [lra|].
  assert (0 <= f a) by (apply H; left; reflexivity).
  assert (0 <= vsum (map f l)) by (apply IH; intros; apply H; right; assumption).
  unfold vsum in *. lra.
Qed.

Lemma vsum_map_le : forall (A : Type) (f g : A -> R) l,
  (forall a, In a l -> f a <= g a) -> vsum (map f l) <= vsum (map g l).
Proof.
  intros A f g l. induction l as [|a l IH]; intro H; simpl; [lra|].
  assert (f a <= g a) by (apply H; left; reflexivity).
  assert (vsum (map f l) <= vsum (map g l)) by (apply IH; intros; apply H; right; assumption).
  unfold vsum in *. lra.
Qed.

Lemma vsum_map_zero : forall (A : Type) (l : list A), vsum (map (fun _ => 0) l) = 0.
Proof. intros A l. rewrite vsum_map_const. lra. Qed.

Lemma vsum_swap : forall (A B : Type) (f : A -> B -> R) la lb,
  vsum (map (fun a => vsum (map (fun b => f a b) lb)) la)
  = vsum (map (fun b => vsum (map (fun a => f a b) la)) lb).
Proof.
  intros A B f la lb. induction la as [|a la IH]; simpl.
  - rewrite vsum_map_zero. reflexivity.
  - rewrite vsum_map_plus. unfold vsum in *. rewrite IH. reflexivity.
Qed.

Lemma vsum_times : forall (A B : Type) (f : A -> R) (g : B -> R) la lb,
  vsum (map f la) * vsum (map g lb)
  = vsum (map (fun a => vsum (map (fun b => f a * g b) lb)) la).
Proof.
  intros A B f g la lb.
  rewrite (vsum_map_ext A (fun a => vsum (map (fun b => f a * g b) lb))
             (fun a => vsum (map g lb) * f a)).
  - rewrite vsum_map_scal. lra.
  - intros a _. rewrite vsum_map_scal. lra.
Qed.

(** The sum against a Kronecker delta picks one term. *)
Lemma vsum_delta : forall (g : nat -> R) c i n s,
  vsum (map (fun j => (if Nat.eqb i j then c else 0) * g j) (seq s n))
  = if andb (Nat.leb s i) (Nat.ltb i (s + n)) then c * g i else 0.
Proof.
  intros g c i n. induction n as [|n IH]; intro s.
  - simpl. destruct (Nat.leb s i) eqn:E1; simpl; [|reflexivity].
    destruct (Nat.ltb i (s + 0)) eqn:E2; [|reflexivity].
    apply Nat.leb_le in E1. apply Nat.ltb_lt in E2. lia.
  - simpl seq. simpl map. change (vsum (?x :: ?l)) with (x + vsum l).
    rewrite IH. destruct (Nat.eqb i s) eqn:Es.
    + apply Nat.eqb_eq in Es. subst s.
      replace (Nat.leb (S i) i) with false by (symmetry; apply Nat.leb_gt; lia).
      rewrite Nat.leb_refl.
      replace (Nat.ltb i (i + S n)) with true by (symmetry; apply Nat.ltb_lt; lia).
      simpl. lra.
    + apply Nat.eqb_neq in Es.
      destruct (Nat.leb s i) eqn:E1; destruct (Nat.leb (S s) i) eqn:E2;
        destruct (Nat.ltb i (S s + n)) eqn:E3; destruct (Nat.ltb i (s + S n)) eqn:E4;
        simpl; try lra;
        repeat match goal with
          | H : Nat.leb _ _ = true |- _ => apply Nat.leb_le in H
          | H : Nat.leb _ _ = false |- _ => apply Nat.leb_gt in H
          | H : Nat.ltb _ _ = true |- _ => apply Nat.ltb_lt in H
          | H : Nat.ltb _ _ = false |- _ => apply Nat.ltb_ge in H
          end; lia.
Qed.

(** The quadratic form of a Gram matrix is a sum of squares. *)
Lemma gram_quadratic_form : forall (a : nat -> nat -> R) (V : nat -> R) lt ln,
  vsum (map (fun i => V i * vsum (map (fun j =>
          vsum (map (fun t => a t i * a t j) lt) / 9 * V j) ln)) ln)
  = vsum (map (fun t => vsum (map (fun i => V i * a t i) ln)
                        * vsum (map (fun i => V i * a t i) ln)) lt) / 9.
Proof.
  intros a V lt ln.
  transitivity (vsum (map (fun i => vsum (map (fun t => vsum (map (fun j =>
                  / 9 * (V i * a t i * (V j * a t j))) ln)) lt)) ln)).
  - apply vsum_map_ext. intros i _.
    rewrite <- vsum_map_scal.
    rewrite (vsum_swap nat nat (fun t j => / 9 * (V i * a t i * (V j * a t j))) lt ln).
    apply vsum_map_ext. intros j _.
    rewrite (vsum_map_ext nat (fun t => / 9 * (V i * a t i * (V j * a t j)))
               (fun t => V i * V j / 9 * (a t i * a t j))) by (intros; field).
    rewrite vsum_map_scal. field.
  - rewrite (vsum_swap nat nat (fun i t => vsum (map (fun j =>
               / 9 * (V i * a t i * (V j * a t j))) ln)) ln lt).
    unfold Rdiv. rewrite Rmult_comm. rewrite <- vsum_map_scal.
    apply vsum_map_ext. intros t _. rewrite vsum_times.
    rewrite <- vsum_map_scal. apply vsum_map_ext. intros i _.
    rewrite <- vsum_map_scal. reflexivity.
Qed.


(** ** The prior covariance as a covariance matrix *)

Lemma spec_covariance_sym : forall i j, spec_covariance i j = spec_covariance j i.
Proof.
  intros i j. unfold spec_covariance, tabulate. f_equal.
  apply vsum_map_ext. intros t _. lra.
Qed.

Lemma spec_variance_nonneg : forall i, 0 <= spec_covariance i i.
Proof.
  intro i. unfold spec_covariance, tabulate.
  apply Rmult_le_pos; [|lra].
  apply vsum_map_nonneg. intros t _. apply Rle_0_sqr.
Qed.

(** X5: in exact arithmetic, for a frame of twenty columns per state the
    prior covariance is a square matrix with one row and one column per
    state, it is symmetric, and every diagonal entry is at least 0.01.  The
    code centres the left factor of entry [i, j] at [mean[j]], so in
    float32 the two entries [i, j] and [j, i] agree only up to rounding. *)
Theorem prior_covariance_symmetric :
  Forall (fun row => length row = 20%nat) frame ->
  exists pc,
    prior_covariance = Ok pc /\
    length pc = length frame /\
    (forall i, (i < length frame)%nat -> length (nth i pc []) = length frame) /\
    (forall i j, (i < length frame)%nat -> (j < length frame)%nat ->
                 nth j (nth i pc []) 0 = nth i (nth j pc []) 0) /\
    (forall i, (i < length frame)%nat -> 1 / 100 <= nth i (nth i pc []) 0).
Proof.
  intro Hwf. eexists. split; [apply prior_covariance_entries; exact Hwf|].
  split; [apply length_tabulate|]. split; [|split].
  - intros i Hi. rewrite nth_tabulate by exact Hi. apply length_tabulate.
  - intros i j Hi Hj. rewrite !nth_tabulate by assumption.
    rewrite spec_covariance_sym. rewrite (Nat.eqb_sym i j). reflexivity.
  - intros i Hi. rewrite !nth_tabulate by assumption. rewrite Nat.eqb_refl.
    pose proof (spec_variance_nonneg i). lra.
Qed.

Lemma list_as_tabulate : forall (v : vec), v = tabulate (length v) (fun i => nth i v 0).
Proof.
  intro v. rewrite <- (map_as_tabulate R R (fun x => x) v 0). symmetry. apply map_id.
Qed.

Lemma dot_tabulate : forall n (f g : nat -> R),
  dot (tabulate n f) (tabulate n g) = vsum (map (fun i => f i * g i) (seq 0 n)).
Proof. intros n f g. unfold dot. rewrite map2_tabulate. reflexivity. Qed.

Lemma vsum_squares_pos : forall (v : vec),
  (exists x, In x v /\ x <> 0) -> 0 < vsum (map (fun x => x * x) v).
Proof.
  intros v (x & Hin & Hx). induction v as [|y v IH]; [contradiction|].
  simpl. assert (0 <= y * y) by apply Rle_0_sqr.
  assert (0 <= vsum (map (fun x => x * x) v))
    by (apply vsum_map_nonneg; intros; apply Rle_0_sqr).
  destruct Hin as [->|Hin].
  - assert (0 < x * x) by (apply Rsqr_pos_lt; exact Hx). unfold vsum in *. lra.
  - specialize (IH Hin). unfold vsum in *. lra.
Qed.

Lemma dot_self : forall (v : vec), dot v v = vsum (map (fun x => x * x) v).
Proof.
  intro v. unfold dot. f_equal. induction v as [|x v IH]; simpl; congruence.
Qed.

(** X6: the prior covariance is positive definite: for every vector [v]
    with one entry per state, [v^T C v] is at least 0.01 times the squared
    length of [v], hence positive unless [v] is zero. *)
Theorem prior_covariance_positive_definite :
  Forall (fun row => length row = 20%nat) frame ->
  exists pc,
    prior_covariance = Ok pc /\
    forall v, length v = length frame ->
      1 / 100 * dot v v <= quadratic_form pc v /\
      ((exists x, In x v /\ x <> 0) -> 0 < quadratic_form pc v).
Proof.
  intro Hwf. eexists. split; [apply prior_covariance_entries; exact Hwf|].
  intros v Hlen.
  assert (Hq : 1 / 100 * dot v v
               <= quadratic_form
                    (tabulate (length frame) (fun i => tabulate (length frame) (fun j =>
                       spec_covariance i j + (if Nat.eqb i j then 1 / 100 else 0)))) v).
  { rewrite (list_as_tabulate v) at 1 2 3. rewrite Hlen.
    set (V := fun i => nth i v 0). set (n := length frame).
    unfold quadratic_form. rewrite map_tabulate.
    rewrite (tabulate_ext R n
               (fun i => dot (tabulate n (fun j =>
                  spec_covariance i j + (if Nat.eqb i j then 1 / 100 else 0))) (tabulate n V))
               (fun i => vsum (map (fun j =>
                  vsum (map (fun t => (spec_logit t i - spec_mean i)
                                      * (spec_logit t j - spec_mean j)) (seq 0 10)) / 9 * V j)
                  (seq 0 n)) + 1 / 100 * V i)).
    - rewrite !dot_tabulate.
      rewrite (vsum_map_ext nat
                 (fun i => V i * (vsum (map (fun j =>
                    vsum (map (fun t => (spec_logit t i - spec_mean i)
                                        * (spec_logit t j - spec_mean j)) (seq 0 10)) / 9 * V j)
                    (seq 0 n)) + 1 / 100 * V i))
                 (fun i => V i * vsum (map (fun j =>
                    vsum (map (fun t => (spec_logit t i - spec_mean i)
                                        * (spec_logit t j - spec_mean j)) (seq 0 10)) / 9 * V j)
                    (seq 0 n)) + 1 / 100 * (V i * V i)))
        by (intros; lra).
      rewrite vsum_map_plus, vsum_map_scal.
      rewrite (gram_quadratic_form (fun t i => spec_logit t i - spec_mean i) V
                 (seq 0 10) (seq 0 n)).
      assert (0 <= vsum (map (fun t =>
                  vsum (map (fun i => V i * (spec_logit t i - spec_mean i)) (seq 0 n))
                  * vsum (map (fun i => V i * (spec_logit t i - spec_mean i)) (seq 0 n)))
                (seq 0 10)))
        by (apply vsum_map_nonneg; intros; apply Rle_0_sqr).
      lra.
    - intros i Hi. rewrite dot_tabulate.
      rewrite (vsum_map_ext nat
                 (fun j => (spec_covariance i j + (if Nat.eqb i j then 1 / 100 else 0)) * V j)
                 (fun j => spec_covariance i j * V j
                           + (if Nat.eqb i j then 1 / 100 else 0) * V j))
        by (intros; lra).
      rewrite vsum_map_plus, vsum_delta.
      replace (andb (Nat.leb 0 i) (Nat.ltb i (0 + n))) with true
        by (symmetry; apply andb_true_intro; split;
            [apply Nat.leb_le; lia | apply Nat.ltb_lt; lia]).
      reflexivity. }
  split; [exact Hq|].
  intro Hnz. rewrite dot_self in Hq. pose proof (vsum_squares_pos v Hnz). lra.
Qed.


(** ** The confidence limits of cell 16 *)

Lemma sigmoid_increasing : forall x y, x < y -> sigmoid x < sigmoid y.
Proof.
  intros x y H. unfold sigmoid.
  pose proof (exp_pos (- x)). pose proof (exp_pos (- y)).
  assert (exp (- y) < exp (- x)) by (apply exp_increasing; lra).
  unfold Rdiv. rewrite !Rmult_1_l. apply Rinv_lt_contravar; [|lra].
  apply Rmult_lt_0_compat; lra.
Qed.

Lemma diag_tabulate : forall n (f : nat -> nat -> R),
  diag (tabulate n (fun i => tabulate n (f i))) = tabulate n (fun i => f i i).
Proof.
  intros n f. unfold diag. rewrite length_tabulate.
  replace (length (hd [] (tabulate n (fun i => tabulate n (f i))))) with n.
  - rewrite Nat.min_id. apply tabulate_ext. intros i Hi.
    rewrite !nth_tabulate by exact Hi. reflexivity.
  - destruct n; [reflexivity|]. rewrite tabulate_shift. simpl hd.
    rewrite length_tabulate. reflexivity.
Qed.

Lemma broadcast_same_length : forall f u v,
  length u = length v -> broadcast f u v = Ok (map2 f u v).
Proof.
  intros f u v H. unfold broadcast. rewrite H, Nat.eqb_refl. reflexivity.
Qed.

(** X7: for a frame of twenty columns per state, cell 16 computes a lower
    and an upper limit for every state; both are probabilities strictly
    between 0 and 1 and the prior mean's probability lies strictly between
    them. *)
Theorem confidence_limits_bracket :
  Forall (fun row => length row = 20%nat) frame ->
  exists pm pc lo hi,
    prior_mean = Ok pm /\
    prior_covariance = Ok pc /\
    lower_confidence_limit pm pc = Ok lo /\
    upper_confidence_limit pm pc = Ok hi /\
    length lo = length frame /\
    length hi = length frame /\
    forall i, (i < length frame)%nat ->
      0 < nth i lo 0 /\
      nth i lo 0 < sigmoid (nth i pm 0) /\
      sigmoid (nth i pm 0) < nth i hi 0 /\
      nth i hi 0 < 1.
Proof.
  intro Hwf.
  set (n := length frame).
  set (C := fun i j => spec_covariance i j + (if Nat.eqb i j then 1 / 100 else 0)).
  set (sd := fun i => 196 / 100 * sqrt (C i i)).
  exists (tabulate n logit_2012), (tabulate n (fun i => tabulate n (C i))),
    (tabulate n (fun i => sigmoid (logit_2012 i - sd i))),
    (tabulate n (fun i => sigmoid (logit_2012 i + sd i))).
  assert (Hstd : scale (196 / 100) (std (tabulate n (fun i => tabulate n (C i))))
                 = tabulate n sd).
  { unfold std, scale. rewrite diag_tabulate, !map_tabulate. reflexivity. }
  split; [apply prior_mean_entries; exact Hwf|].
  split; [apply prior_covariance_entries; exact Hwf|].
  split; [|split; [|split; [|split]]].
  - unfold lower_confidence_limit. rewrite Hstd.
    rewrite broadcast_same_length by (rewrite !length_tabulate; reflexivity).
    cbn [bind]. rewrite map2_tabulate, map_tabulate. reflexivity.
  - unfold upper_confidence_limit. rewrite Hstd.
    rewrite broadcast_same_length by (rewrite !length_tabulate; reflexivity).
    cbn [bind]. rewrite map2_tabulate, map_tabulate. reflexivity.
  - apply length_tabulate.
  - apply length_tabulate.
  - intros i Hi. rewrite !nth_tabulate by exact Hi.
    assert (Hsd : 0 < sd i).
    { unfold sd. apply Rmult_lt_0_compat; [lra|]. apply sqrt_lt_R0.
      unfold C. rewrite Nat.eqb_refl. pose proof (spec_variance_nonneg i). lra. }
    pose proof (sigmoid_range (logit_2012 i - sd i)).
    pose proof (sigmoid_range (logit_2012 i + sd i)).
    repeat split; try tauto; apply sigmoid_increasing; lra.
Qed.


(** ** The correlation matrix of cell 24 *)

Lemma matrix_as_tabulate : forall (m : matrix) n,
  length m = n ->
  Forall (fun row => length row = n) m ->
  m = tabulate n (fun i => tabulate n (fun j => nth j (nth i m []) 0)).
Proof.
  intros m n Hlen Hrows.
  rewrite <- (map_id m) at 1. rewrite (map_as_tabulate _ _ (fun x => x) m []), Hlen.
  apply tabulate_ext. intros i Hi.
  assert (Hrow : length (nth i m []) = n).
  { rewrite Forall_forall in Hrows. apply Hrows. apply nth_In. lia. }
  rewrite (list_as_tabulate (nth i m [])) at 1. rewrite Hrow. reflexivity.
Qed.

Lemma correlation_entries : forall n (c : nat -> nat -> R),
  correlation (tabulate n (fun i => tabulate n (c i)))
  = tabulate n (fun i => tabulate n (fun j => c i j / sqrt (c j j * c i i))).
Proof.
  intros n c. unfold correlation. rewrite diag_tabulate, combine_tabulate, map_tabulate.
  apply tabulate_ext. intros i Hi. cbv beta iota delta [fst snd].
  rewrite map2_tabulate. reflexivity.
Qed.

(** X8: on a square matrix with a positive diagonal, [correlation] returns
    a matrix of the same shape whose diagonal entries are all 1, and which
    is symmetric when its argument is. *)
Theorem correlation_unit_diagonal : forall (cov : matrix) n,
  length cov = n ->
  Forall (fun row => length row = n) cov ->
  (forall i, (i < n)%nat -> 0 < nth i (nth i cov []) 0) ->
  length (correlation cov) = n /\
  (forall i, (i < n)%nat -> length (nth i (correlation cov) []) = n) /\
  (forall i, (i < n)%nat -> nth i (nth i (correlation cov) []) 0 = 1) /\
  ((forall i j, (i < n)%nat -> (j < n)%nat ->
      nth j (nth i cov []) 0 = nth i (nth j cov []) 0) ->
   forall i j, (i < n)%nat -> (j < n)%nat ->
      nth j (nth i (correlation cov) []) 0 = nth i (nth j (correlation cov) []) 0).
Proof.
  intros cov n Hlen Hrows Hpos.
  set (c := fun i j => nth j (nth i cov []) 0).
  assert (E : correlation cov
              = tabulate n (fun i => tabulate n (fun j => c i j / sqrt (c j j * c i i)))).
  { rewrite (matrix_as_tabulate cov n Hlen Hrows) at 1. apply correlation_entries. }
  rewrite E.
  split; [apply length_tabulate|]. split; [|split].
  - intros i Hi. rewrite nth_tabulate by exact Hi. apply length_tabulate.
  - intros i Hi. rewrite !nth_tabulate by exact Hi.
    specialize (Hpos i Hi). fold (c i i) in Hpos. rewrite sqrt_square by lra. field. lra.
  - intros Hsym i j Hi Hj. rewrite !nth_tabulate by assumption.
    specialize (Hsym i j Hi Hj). fold (c i j) in Hsym. fold (c j i) in Hsym.
    rewrite Hsym. rewrite (Rmult_comm (c j j)). reflexivity.
Qed.

(** ** The poll's success probabilities under the 2016 results *)

Lemma sigmoid_log_ratio : forall d p,
  0 < d -> 0 < p -> sigmoid (ln (d / p)) = d / (d + p).
Proof.
  intros d p Hd Hp. unfold sigmoid.
  assert (Hq : 0 < d / p) by (apply Rdiv_lt_0_compat; assumption).
  rewrite exp_Ropp, exp_ln by exact Hq. field. lra.
Qed.

Lemma exec_conditioned_model_sites : forall pm pc ta d tr r,
  exec (conditioned_model pm pc ta d) tr r ->
  exists y rest,
    support (BinomialEvent d ta) y /\
    tr = mk_site "alpha" Vector (MultivariateNormal pm pc) ta true
         :: mk_site "y" Vector (BinomialEvent d ta) y false :: rest.
Proof.
  intros pm pc ta d tr r H. unfold conditioned_model, model in H. simpl in H.
  apply exec_inv in H. simpl in H. destruct H as (tr1 & H & ->).
  apply exec_inv in H. simpl in H. destruct H as (y & tr2 & Hy & H & ->).
  exists y, tr2. split; [exact Hy | reflexivity].
Qed.

(** X9: every run of the conditioned model on an allocation [d] passes the
    site alpha as an observed site at [true_alpha] and then draws the site
    y from binomials whose trial counts are [d] and whose success
    probability for a state, the sigmoid of its logit, is that state's 2016
    Democrat share of the two-party vote, for positive vote counts. *)
Theorem conditioned_success_probability : forall pm pc ta d tr r,
  true_alpha = Ok ta ->
  exec (conditioned_model pm pc ta d) tr r ->
  exists s_alpha s_y probs,
    nth_error tr 0 = Some s_alpha /\
    site_name s_alpha = "alpha"%string /\
    is_observed s_alpha = true /\
    nth_error tr 1 = Some s_y /\
    site_name s_y = "y"%string /\
    is_observed s_y = false /\
    binomial_parameters s_y = Some (d, probs) /\
    forall i row,
      nth_error test_data i = Some row ->
      0 < nth 0 row 0 -> 0 < nth 1 row 0 ->
      nth_error probs i = Some (nth 0 row 0 / (nth 0 row 0 + nth 1 row 0)).
Proof.
  intros pm pc ta d tr r Hta Hex.
  destruct (exec_conditioned_model_sites _ _ _ _ _ _ Hex) as (y & rest & _ & ->).
  eexists. eexists. exists (success_probs ta).
  split; [reflexivity|]. split; [reflexivity|]. split; [reflexivity|].
  split; [reflexivity|]. split; [reflexivity|]. split; [reflexivity|].
  split; [reflexivity|].
  intros i row Hrow Hd Hp.
  unfold true_alpha in Hta. apply log_ratio_inv in Hta. subst ta.
  unfold success_probs, probs_of_logits. rewrite map_map.
  rewrite (map_nth_error (fun r => sigmoid (ln (nth 0 r 0 / nth 1 r 0))) i test_data Hrow).
  f_equal. apply sigmoid_log_ratio; assumption.
Qed.


(** ** The prior probability of a Democrat win and its entropy *)

Lemma vsum_01_bounds : forall (v : vec),
  Forall (fun w => w = 0 \/ w = 1) v -> 0 <= vsum v <= INR (length v).
Proof.
  intros v H. induction H as [|w v Hw _ IH].
  - simpl. lra.
  - simpl length. rewrite S_INR. simpl. unfold vsum in *. destruct Hw; subst; lra.
Qed.

Lemma ln_2_positive : 0 < ln 2.
Proof. rewrite <- ln_1. apply ln_increasing; lra. Qed.

Lemma ln_le_minus_1 : forall x, 0 < x -> ln x <= x - 1.
Proof.
  intros x Hx. pose proof (exp_ineq1_le (ln x)) as H.
  rewrite exp_ln in H by exact Hx. lra.
Qed.

Lemma entropy_term_bound : forall p,
  0 < p -> - (p * ln 2) - p * ln p <= 1 / 2 - p.
Proof.
  intros p Hp.
  assert (H2p : 0 < / (2 * p)) by (apply Rinv_0_lt_compat; lra).
  pose proof (ln_le_minus_1 (/ (2 * p)) H2p) as H.
  rewrite ln_Rinv, ln_mult in H by lra.
  apply (Rmult_le_compat_l p) in H; [|lra].
  replace (p * (/ (2 * p) - 1)) with (1 / 2 - p) in H by (field; lra). lra.
Qed.

Lemma bernoulli_entropy_bounds : forall p,
  0 <= p <= 1 -> 0 <= bernoulli_entropy p <= ln 2.
Proof.
  intros p [H0 H1]. unfold bernoulli_entropy. pose proof ln_2_positive as H2.
  destruct (Req_dec p 0) as [->|Hp0].
  - replace (1 - 0) with 1 by lra. rewrite ln_1. lra.
  - destruct (Req_dec p 1) as [->|Hp1].
    + replace (1 - 1) with 0 by lra. rewrite ln_1. lra.
    + assert (Hp : 0 < p < 1) by lra.
      assert (Hlp : ln p < 0) by (rewrite <- ln_1; apply ln_increasing; lra).
      assert (Hlq : ln (1 - p) < 0) by (rewrite <- ln_1; apply ln_increasing; lra).
      pose proof (entropy_term_bound p (proj1 Hp)) as Ep.
      assert (Hq : 0 < 1 - p) by lra.
      pose proof (entropy_term_bound (1 - p) Hq) as Eq.
      split; nra.
Qed.

(** X10: when the simulated winners are a non-empty vector of zeros and
    ones, as [election_winner] returns them, [prior_w_prob] is a probability
    and the prior entropy lies between 0 and log 2. *)
Theorem prior_entropy_bounds :
  dem_wins <> [] ->
  Forall (fun w => w = 0 \/ w = 1) dem_wins ->
  0 <= prior_w_prob <= 1 /\ 0 <= prior_entropy <= ln 2.
Proof.
  intros Hne H01.
  assert (Hp : 0 <= prior_w_prob <= 1).
  { unfold prior_w_prob. pose proof (vsum_01_bounds dem_wins H01) as [Hlo Hhi].
    assert (Hn : 0 < INR (length dem_wins)).
    { apply lt_0_INR. destruct dem_wins; [congruence | simpl; lia]. }
    split.
    - apply Rmult_le_pos; [exact Hlo|]. left. apply Rinv_0_lt_compat. exact Hn.
    - apply Rmult_le_reg_r with (r := INR (length dem_wins)); [exact Hn|].
      unfold Rdiv. rewrite Rmult_assoc, Rinv_l by lra. lra. }
  split; [exact Hp|]. unfold prior_entropy. apply bernoulli_entropy_bounds. exact Hp.
Qed.


(** ** From the scoring loop to the retraining cell *)

(** X11: the retraining cell runs exactly when some score is strictly
    positive.  It then looks up the allocation of the selected strategy,
    clears the parameter store, builds a fresh guide and calls
    [posterior_eig] on that allocation with [eig=False] and without
    [final_num_samples]; its results are that allocation and the guide as
    the call leaves it. *)
Theorem retrain_after_scoring : forall pm pc w0,
  exists st,
    score_strategies pm pc w0 = Ok st /\
    (some_positive_score st ->
     exists b ps ba g0 w2 ape guide w3,
       best_strategy st = Some b /\
       poll_strategies = Ok ps /\
       Dict.get ps b = Ok ba /\
       new_OutcomePredictor (clear_param_store (the_world st)) = (g0, w2) /\
       eig (retraining_call pm pc ba g0) = false /\
       final_num_samples (retraining_call pm pc ba g0) = None /\
       posterior_eig (retraining_call pm pc ba g0) w2 = (ape, guide, w3) /\
       retrain pm pc st = Ok (ba, guide, w3)) /\
    (forall r, retrain pm pc st = Ok r -> some_positive_score st).
Proof.
  intros pm pc w0. destruct (score_strategies_total pm pc w0) as [st Hst].
  exists st. split; [exact Hst|].
  pose proof (selection_inv_final pm pc w0 st Hst) as Hinv.
  destruct poll_strategies_ok as (florida & dc & _ & _ & Hps).
  split.
  - intros (s & v & Hs & Hv).
    destruct (best_strategy st) as [b|] eqn:Hb.
    2:{ pose proof (proj1 (selection_inv_none _ _ Hinv) Hb s v Hs). lra. }
    destruct (selection_inv_first_maximum _ _ _ Hinv Hb) as (pre & post & vb & Hd & _).
    destruct (in_keys_get _ [("Florida"%string, florida); ("DC"%string, dc);
                             ("Uniform"%string, uniform_poll); ("Swing"%string, swing_poll)] b)
      as [ba Hba].
    { change (In b ["Florida"%string; "DC"%string; "Uniform"%string; "Swing"%string]).
      rewrite Hd. apply in_or_app. right. left. reflexivity. }
    destruct (new_OutcomePredictor (clear_param_store (the_world st))) as [g0 w2] eqn:Hg.
    destruct (posterior_eig (retraining_call pm pc ba g0) w2) as [[ape guide] w3] eqn:Hpe.
    exists b. eexists. exists ba, g0, w2, ape, guide, w3.
    split; [reflexivity|]. split; [exact Hps|]. split; [exact Hba|].
    split; [reflexivity|]. split; [reflexivity|]. split; [reflexivity|].
    split; [exact Hpe|].
    unfold retrain. rewrite Hps. cbn [bind]. rewrite Hb.
    cbn [Dict.get_opt]. rewrite Hba. cbn [bind]. rewrite Hg, Hpe. reflexivity.
  - intros r Hr.
    destruct (best_strategy st) as [b|] eqn:Hb.
    + pose proof Hinv as [_ H]. rewrite Hb in H.
      destruct H as (Hpos & pre & post & _ & Hg & _).
      exists b, (best_eig st). split; [exact Hg | exact Hpos].
    + unfold retrain in Hr. rewrite Hps in Hr. cbn [bind] in Hr. rewrite Hb in Hr.
      discriminate.
Qed.

Lemma set_fresh_app : forall (V : Type) (d : Dict.dict V) k v,
  ~ In k (Dict.keys d) -> Dict.set d k v = d ++ [(k, v)].
Proof.
  intros V d k v. induction d as [|[k' v'] d IH]; intro Hn; simpl; [reflexivity|].
  destruct (String.eqb k k') eqn:E.
  - apply String.eqb_eq in E. subst k'. exfalso. apply Hn. left. reflexivity.
  - f_equal. apply IH. intro H. apply Hn. right. exact H.
Qed.

Lemma best_so_far_snoc : forall scores x,
  best_so_far (scores ++ [x]) = Rmax (best_so_far scores) x.
Proof. intros scores x. unfold best_so_far. rewrite fold_left_app. reflexivity. Qed.

Lemma best_eig_step : forall pm pc done st s a st',
  selection_inv done st ->
  ~ In s done ->
  best_eig st = best_so_far (map snd (eigs st)) ->
  loop_body pm pc st (s, a) = Ok st' ->
  best_eig st' = best_so_far (map snd (eigs st')).
Proof.
  intros pm pc done st s a st' [Hk _] Hfresh HJ Hbody.
  destruct (loop_body_cases pm pc st s a) as [w' E]. rewrite E in Hbody.
  injection Hbody as <-.
  set (score := prior_entropy - ape_of pm pc st a) in *.
  assert (Hset : map snd (Dict.set (eigs st) s score) = map snd (eigs st) ++ [score]).
  { rewrite set_fresh_app by (rewrite Hk; exact Hfresh). rewrite map_app. reflexivity. }
  destruct (Rgtb score (best_eig st)) eqn:Hcmp; simpl; rewrite Hset, best_so_far_snoc, <- HJ.
  - apply Rgtb_spec in Hcmp. symmetry. apply Rmax_right. lra.
  - symmetry. apply Rmax_left.
    destruct (Rle_or_lt score (best_eig st)) as [Hl|Hl]; [exact Hl|].
    rewrite Rgtb_true in Hcmp by lra. discriminate.
Qed.

Lemma best_eig_loop : forall pm pc items done st st',
  selection_inv done st ->
  best_eig st = best_so_far (map snd (eigs st)) ->
  NoDup (done ++ Dict.keys items) ->
  loop pm pc items st = Ok st' ->
  best_eig st' = best_so_far (map snd (eigs st')).
Proof.
  intros pm pc items. induction items as [|[s a] items IH];
    intros done st st' Hinv HJ Hnd H; cbn [loop] in H.
  - injection H as <-. exact HJ.
  - destruct (loop_body pm pc st (s, a)) as [st1|e] eqn:E; cbn [bind] in H; [|discriminate].
    simpl Dict.keys in Hnd.
    assert (Hfresh : ~ In s done).
    { intro Hin. apply NoDup_remove_2 in Hnd. apply Hnd. apply in_or_app. left. exact Hin. }
    apply (IH (done ++ [s]) st1 st').
    + eapply selection_inv_step; eassumption.
    + eapply best_eig_step; eassumption.
    + rewrite <- app_assoc. exact Hnd.
    + exact H.
Qed.

(** X12: after the loop [best_eig] is the largest of 0 and the four
    recorded scores; it is never negative, it bounds every recorded score,
    and [best_strategy] is None exactly when it is 0. *)
Theorem best_eig_running_maximum : forall pm pc w0,
  exists st,
    score_strategies pm pc w0 = Ok st /\
    best_eig st = best_so_far (map snd (eigs st)) /\
    length (eigs st) = 4%nat /\
    0 <= best_eig st /\
    (forall s v, Dict.get (eigs st) s = Ok v -> v <= best_eig st) /\
    (best_strategy st = None <-> best_eig st = 0).
Proof.
  intros pm pc w0. destruct (score_strategies_total pm pc w0) as [st Hst].
  exists st. split; [exact Hst|].
  pose proof (selection_inv_final pm pc w0 st Hst) as Hinv.
  split; [|split; [|split; [|split]]].
  - unfold score_strategies in Hst.
    destruct poll_strategies_ok as (florida & dc & _ & _ & E). rewrite E in Hst.
    cbn [bind] in Hst.
    eapply (best_eig_loop pm pc _ [] (loop_init w0) st (selection_inv_init w0));
      [reflexivity | | exact Hst].
    exact strategy_names_nodup.
  - destruct Hinv as [Hk _]. unfold Dict.keys in Hk.
    rewrite <- (length_map fst), Hk. reflexivity.
  - destruct Hinv as [_ H]. destruct (best_strategy st); [destruct H; lra|].
    destruct H as [-> _]. lra.
  - intros s v Hs. eapply selection_inv_bound; eassumption.
  - destruct Hinv as [_ H]. destruct (best_strategy st) as [b|].
    + destruct H as [Hpos _]. split; [discriminate | intro; lra].
    + destruct H as [H0 _]. split; [intro; exact H0 | reflexivity].
Qed.


(** ** Frames that are too narrow *)

Lemma traverse_ok_inv : forall (A B : Type) (f : A -> result B) l v,
  traverse f l = Ok v -> forall a, In a l -> exists b, f a = Ok b.
Proof.
  intros A B f l. induction l as [|x l IH]; intros v H a Ha; [contradiction|].
  simpl in H. apply bind_ok_inv in H. destruct H as (b & Hb & H).
  apply bind_ok_inv in H. destruct H as (bs & Hbs & _).
  destruct Ha as [<-|Ha]; [eauto | eapply IH; eassumption].
Qed.

Lemma traverse_raised_inv : forall (A B : Type) (f : A -> result B) l e,
  traverse f l = Raised e -> exists a, In a l /\ f a = Raised e.
Proof.
  intros A B f l e. induction l as [|x l IH]; intro H; simpl in H; [discriminate|].
  destruct (f x) as [b|e'] eqn:Ex; cbn [bind] in H.
  - destruct (traverse f l) as [bs|e'] eqn:El; cbn [bind] in H; [discriminate|].
    injection H as ->. destruct (IH eq_refl) as (a & Ha & Hfa).
    exists a. split; [right; exact Ha | exact Hfa].
  - injection H as ->. exists x. split; [left; reflexivity | exact Ex].
Qed.

Lemma get_item_raised : forall row c e, get_item row c = Raised e -> e = IndexError.
Proof.
  intros row c e H. unfold get_item in H.
  destruct (nth_error row c); [discriminate | congruence].
Qed.

Lemma get_item_ok_inv : forall row c x, get_item row c = Ok x -> (c < length row)%nat.
Proof.
  intros row c x H. unfold get_item in H.
  destruct (nth_error row c) eqn:E; [|discriminate].
  apply nth_error_Some. congruence.
Qed.

Lemma select_columns_raised : forall cols (m : matrix) e,
  traverse (index_select cols) m = Raised e -> e = IndexError.
Proof.
  intros cols m e H. apply traverse_raised_inv in H. destruct H as (row & _ & H).
  unfold index_select in H. apply traverse_raised_inv in H. destruct H as (c & _ & H).
  eapply get_item_raised. exact H.
Qed.

Lemma select_columns_ok_inv : forall cols (m : matrix) v row c,
  traverse (index_select cols) m = Ok v -> In row m -> In c cols ->
  (c < length row)%nat.
Proof.
  intros cols m v row c H Hrow Hc.
  destruct (traverse_ok_inv _ _ _ _ _ H row Hrow) as (r & Hr).
  unfold index_select in Hr.
  destruct (traverse_ok_inv _ _ _ _ _ Hr c Hc) as (x & Hx).
  eapply get_item_ok_inv. exact Hx.
Qed.

(** X13: on a non-empty historical frame whose rows all have [width]
    columns, the logits and the prior covariance are computed when the
    frame has at least 20 columns, columns beyond the twentieth being
    ignored, and raise IndexError when it has fewer. *)
Theorem prior_covariance_needs_twenty_columns : forall width,
  frame <> [] ->
  Forall (fun row => length row = width) frame ->
  ((20 <= width)%nat ->
   exists lg pc, logits = Ok lg /\ prior_covariance = Ok pc /\
     lg = tabulate 10 (fun t => tabulate (length frame) (fun i => spec_logit t i))) /\
  ((width < 20)%nat ->
   logits = Raised IndexError /\ prior_covariance = Raised IndexError).
Proof.
  intros width Hne Hwf. split.
  - intro Hw.
    assert (Hlg : logits
                  = Ok (tabulate 10 (fun t => tabulate (length frame) (fun i => spec_logit t i)))).
    { unfold logits.
      rewrite (select_columns_ok idx width frame Hwf)
        by (unfold idx; simpl; repeat constructor; lia).
      rewrite (select_columns_ok (map S idx) width frame Hwf)
        by (unfold idx; simpl; repeat constructor; lia).
      cbv beta iota delta [bind]. f_equal.
      rewrite combine_map_same, map_map. cbv beta iota delta [fst snd].
      unfold transpose. replace (length idx) with 10%nat by reflexivity.
      apply tabulate_ext. intros t Ht.
      rewrite map_map. rewrite (map_as_tabulate _ _ _ frame []).
      apply tabulate_ext. intros i Hi.
      rewrite idx_tabulate, !map_tabulate, map2_tabulate.
      rewrite nth_tabulate by exact Ht.
      unfold spec_logit. rewrite Nat.add_1_r. reflexivity. }
    eexists. eexists. split; [exact Hlg|]. split; [|reflexivity].
    unfold prior_covariance. rewrite Hlg. reflexivity.
  - intro Hw.
    assert (Hlg : logits = Raised IndexError).
    { unfold logits.
      destruct (traverse (index_select idx) frame) as [dem|e] eqn:Ed; cbn [bind].
      - destruct (traverse (index_select (map S idx)) frame) as [rep|e] eqn:Er; cbn [bind].
        + exfalso. destruct frame as [|row rest]; [congruence|].
          assert (Hc : (19 < length row)%nat).
          { apply (select_columns_ok_inv (map S idx) (row :: rest) rep row 19 Er).
            - left; reflexivity.
            - unfold idx. simpl. tauto. }
          rewrite Forall_forall in Hwf. rewrite (Hwf row) in Hc by (left; reflexivity). lia.
        + apply select_columns_raised in Er. congruence.
      - apply select_columns_raised in Ed. congruence. }
    split; [exact Hlg|]. unfold prior_covariance. rewrite Hlg. reflexivity.
Qed.


(** ** Rounding *)

Lemma round_half_even_cases : forall x,
  (round_half_even x = IZR (Int_part x) /\ frac_part x <= 1 / 2) \/
  (round_half_even x = IZR (Int_part x) + 1 /\ 1 / 2 <= frac_part x).
Proof.
  intro x. unfold round_half_even.
  destruct (Rlt_dec (frac_part x) (1 / 2)) as [H|H]; [left; split; [reflexivity | lra]|].
  destruct (Rlt_dec (1 / 2) (frac_part x)) as [H'|H'].
  - right. rewrite plus_IZR. split; [reflexivity | lra].
  - destruct (Z.even (Int_part x)).
    + left. split; [reflexivity | lra].
    + right. rewrite plus_IZR. split; [reflexivity | lra].
Qed.

Lemma round_half_even_error : forall x, - (1 / 2) <= round_half_even x - x <= 1 / 2.
Proof.
  intro x. pose proof (base_fp x) as [H0 H1]. unfold frac_part in *.
  destruct (round_half_even_cases x) as [[-> H]|[-> H]]; unfold frac_part in H; lra.
Qed.

Lemma round_half_even_integer : forall x,
  0 <= x -> exists z, (0 <= z)%Z /\ round_half_even x = IZR z.
Proof.
  intros x Hx. pose proof (base_fp x) as [H0 H1]. unfold frac_part in *.
  assert (Hz : (0 <= Int_part x)%Z).
  { assert (IZR (-1) < IZR (Int_part x)) by (simpl; lra).
    apply lt_IZR in H. lia. }
  destruct (round_half_even_cases x) as [[E _]|[E _]].
  - exists (Int_part x). split; [exact Hz | exact E].
  - exists (Int_part x + 1)%Z. split; [lia|]. rewrite plus_IZR. exact E.
Qed.

Lemma round_half_even_monotone : forall x y,
  x <= y -> round_half_even x <= round_half_even y.
Proof.
  intros x y Hxy.
  pose proof (base_fp x) as [Hx0 Hx1]. pose proof (base_fp y) as [Hy0 Hy1].
  destruct (Z.lt_trichotomy (Int_part x) (Int_part y)) as [Hlt|[Heq|Hgt]].
  - assert (IZR (Int_part x) + 1 <= IZR (Int_part y)).
    { rewrite <- plus_IZR. apply IZR_le. lia. }
    destruct (round_half_even_cases x) as [[-> _]|[-> _]];
      destruct (round_half_even_cases y) as [[-> _]|[-> _]]; lra.
  - unfold round_half_even. unfold frac_part in *. rewrite Heq in *.
    destruct (Rlt_dec (x - IZR (Int_part y)) (1 / 2));
      destruct (Rlt_dec (y - IZR (Int_part y)) (1 / 2));
      destruct (Rlt_dec (1 / 2) (x - IZR (Int_part y)));
      destruct (Rlt_dec (1 / 2) (y - IZR (Int_part y)));
      destruct (Z.even (Int_part y)); rewrite ?plus_IZR; lra.
  - assert (IZR (Int_part y) + 1 <= IZR (Int_part x)).
    { rewrite <- plus_IZR. apply IZR_le. lia. }
    unfold frac_part in *. lra.
Qed.

Lemma vsum_round_error : forall (v : vec),
  - (INR (length v) / 2) <= vsum (map round_half_even v) - vsum v <= INR (length v) / 2.
Proof.
  induction v as [|x v IH].
  - simpl. lra.
  - simpl length. rewrite S_INR. simpl. pose proof (round_half_even_error x).
    unfold vsum in *. lra.
Qed.

(** ** The swing allocation of cell 35 *)

Lemma swing_score_positive : forall p,
  Forall (fun x => x <> 1 / 2) p -> Forall (fun s => 0 < s) (swing_score p).
Proof.
  intros p H. unfold swing_score. induction H as [|x p Hx _ IH]; simpl; constructor.
  - apply Rdiv_lt_0_compat; [lra|]. apply Rabs_pos_lt. lra.
  - exact IH.
Qed.

Lemma vsum_positive : forall (v : vec),
  v <> [] -> Forall (fun s => 0 < s) v -> 0 < vsum v.
Proof.
  intros v Hne H. destruct H as [|x v Hx Hv]; [congruence|].
  assert (0 <= vsum v).
  { clear Hne. induction Hv as [|y v Hy _ IH]; simpl; [lra|]. unfold vsum in *. lra. }
  simpl. unfold vsum in *. lra.
Qed.

Lemma swing_unrounded_nonneg : forall p,
  p <> [] -> Forall (fun x => x <> 1 / 2) p ->
  Forall (fun a => 0 <= a) (swing_poll_unrounded p).
Proof.
  intros p Hne H. pose proof (swing_score_positive p H) as Hs.
  assert (Hsum : 0 < vsum (swing_score p)).
  { apply vsum_positive; [|exact Hs]. unfold swing_score. destruct p; [congruence | discriminate]. }
  unfold swing_poll_unrounded. apply Forall_forall. intros a Ha.
  apply in_map_iff in Ha. destruct Ha as (s & <- & Hin).
  rewrite Forall_forall in Hs. specialize (Hs s Hin).
  left. apply Rdiv_lt_0_compat; lra.
Qed.

(** X14: when no state's probability is exactly one half, the swing
    allocation before rounding sums to 1000; rounding turns every entry
    into a non-negative whole number and moves the total by at most half a
    person per state, so the people polled need not be 1000. *)
Theorem swing_poll_total : forall p,
  p <> [] ->
  Forall (fun x => x <> 1 / 2) p ->
  vsum (swing_poll_unrounded p) = 1000 /\
  length (swing_poll_from p) = length p /\
  Forall (fun a => exists z, (0 <= z)%Z /\ a = IZR z) (swing_poll_from p) /\
  1000 - INR (length p) / 2 <= vsum (swing_poll_from p) <= 1000 + INR (length p) / 2.
Proof.
  intros p Hne H. pose proof (swing_score_positive p H) as Hs.
  assert (Hsum : 0 < vsum (swing_score p)).
  { apply vsum_positive; [|exact Hs]. unfold swing_score. destruct p; [congruence | discriminate]. }
  assert (Htot : vsum (swing_poll_unrounded p) = 1000).
  { unfold swing_poll_unrounded.
    rewrite (vsum_map_ext R (fun s => 1000 * s / vsum (swing_score p))
               (fun s => 1000 / vsum (swing_score p) * (fun s => s) s))
      by (intros; field; lra).
    rewrite vsum_map_scal, map_id. field. lra. }
  split; [exact Htot|]. split; [|split].
  - unfold swing_poll_from, swing_poll_unrounded, swing_score. rewrite !length_map. reflexivity.
  - unfold swing_poll_from. pose proof (swing_unrounded_nonneg p Hne H) as Hnn.
    apply Forall_forall. intros a Ha. apply in_map_iff in Ha. destruct Ha as (r & <- & Hr).
    rewrite Forall_forall in Hnn.
    destruct (round_half_even_integer r (Hnn r Hr)) as (z & Hz & E). exists z. auto.
  - pose proof (vsum_round_error (swing_poll_unrounded p)) as He.
    unfold swing_poll_from.
    replace (length (swing_poll_unrounded p)) with (length p) in He
      by (unfold swing_poll_unrounded, swing_score; rewrite !length_map; reflexivity).
    lra.
Qed.

(** ** The marginal win probabilities of cell 21 *)

Lemma dem_win_state_entry : forall alpha j,
  0 <= nth j (dem_win_state alpha) 0 <= 1.
Proof.
  intros alpha j. unfold dem_win_state.
  destruct (Nat.lt_ge_cases j (length alpha)) as [Hj|Hj].
  - rewrite (nth_indep _ 0 (to_float (Rgtb 0 0))) by (rewrite length_map; exact Hj).
    rewrite (map_nth (fun a => to_float (Rgtb a 0))).
    destruct (to_float_cases (Rgtb (nth j alpha 0) 0)) as [-> | ->]; lra.
  - rewrite nth_overflow by (rewrite length_map; exact Hj). lra.
Qed.

(** X16: for a non-empty batch of prior samples, [dem_prob] has one entry
    per state and every entry is a frequency between 0 and 1; a state whose
    frequency is not one half therefore has a swing score of at least 2. *)
Theorem dem_prob_is_frequency : forall n_states alpha_samples,
  alpha_samples <> [] ->
  length (dem_prob n_states alpha_samples) = n_states /\
  Forall (fun q => 0 <= q <= 1) (dem_prob n_states alpha_samples) /\
  Forall (fun q => q <> 1 / 2 -> 2 <= 1 / Rabs (1 / 2 - q)) (dem_prob n_states alpha_samples).
Proof.
  intros n_states alpha_samples Hne.
  assert (Hn : 0 < INR (length (map dem_win_state alpha_samples))).
  { apply lt_0_INR. rewrite length_map. destruct alpha_samples; [congruence | simpl; lia]. }
  assert (Hall : Forall (fun q => 0 <= q <= 1) (dem_prob n_states alpha_samples)).
  { unfold dem_prob, mean0, sum0. rewrite map_tabulate. unfold tabulate.
    apply Forall_forall. intros q Hq. apply in_map_iff in Hq. destruct Hq as (j & <- & _).
    rewrite map_map.
    assert (Hb : 0 <= vsum (map (fun x => nth j (dem_win_state x) 0) alpha_samples)
                 <= INR (length (map dem_win_state alpha_samples))).
    { rewrite length_map. clear Hn Hne.
      induction alpha_samples as [|a l IH]; [simpl; lra|].
      simpl length. rewrite S_INR. simpl. pose proof (dem_win_state_entry a j).
      unfold vsum in *. lra. }
    split.
    - apply Rmult_le_pos; [lra|]. left. apply Rinv_0_lt_compat. exact Hn.
    - apply Rmult_le_reg_r with (r := INR (length (map dem_win_state alpha_samples)));
        [exact Hn|].
      unfold Rdiv. rewrite Rmult_assoc, Rinv_l by lra. lra. }
  split; [|split; [exact Hall|]].
  - unfold dem_prob, mean0, sum0. rewrite length_map. apply length_tabulate.
  - eapply Forall_impl; [|exact Hall]. intros q [H0 H1] Hq. simpl.
    assert (Ha : 0 < Rabs (1 / 2 - q) <= 1 / 2).
    { split; [apply Rabs_pos_lt; lra|]. apply Rabs_le. lra. }
    apply Rmult_le_reg_r with (r := Rabs (1 / 2 - q)); [lra|].
    unfold Rdiv. rewrite Rmult_assoc, Rinv_l by lra. lra.
Qed.


End Notebook.

(** * The properties on sample data *)

Lemma Ok_inj : forall (A : Type) (a b : A), Ok a = Ok b -> a = b.
Proof. intros A a b H. congruence. Qed.

Lemma Forall_repeat_intro : forall (A : Type) (P : A -> Prop) x n,
  P x -> Forall P (repeat x n).
Proof. intros A P x n H. induction n; simpl; constructor; assumption. Qed.

Lemma skewed_frame_shape :
  Forall (fun row => length row = 20%nat) Example.skewed_frame.
Proof. apply Forall_repeat_intro. reflexivity. Qed.

Lemma frame_shape : Forall (fun row => length row = 20%nat) Example.frame.
Proof. apply Forall_repeat_intro. reflexivity. Qed.

Lemma skewed_frame_sample_mean : spec_mean Example.skewed_frame 0 = ln 2 / 10.
Proof.
  unfold spec_mean, tabulate, spec_logit, Example.skewed_frame. simpl.
  replace (1 / 1) with 1 by lra. replace (2 / 1) with 2 by lra.
  rewrite ln_1. lra.
Qed.

Lemma skewed_frame_logit_2012 : logit_2012 Example.skewed_frame 0 = 0.
Proof.
  unfold logit_2012, spec_logit, Example.skewed_frame. simpl.
  replace (1 / 1) with 1 by lra. apply ln_1.
Qed.

Lemma ln_2_pos : 0 < ln 2.
Proof. rewrite <- ln_1. apply ln_increasing; lra. Qed.

(** Two exact halves: three votes each, the first state at alpha = 0, the
    second won by the Democrats; the Democrats hold exactly half of the
    votes and lose. *)
Lemma election_winner_strict_witness :
  length [0; 1] = length [3; 3]%nat /\
  election_winner [3; 3]%nat [0; 1] = Ok 0.
Proof.
  split; [reflexivity|].
  destruct (election_winner_strict [3; 3]%nat [0; 1] eq_refl)
    as (dem & w & Hdem & Hw & _ & _ & _ & _ & Htie).
  rewrite Hw. f_equal. apply Htie.
  unfold dem_electoral_college_votes, mul, broadcast in Hdem. simpl in Hdem.
  rewrite Rgtb_false, Rgtb_true in Hdem by lra. injection Hdem as <-.
  simpl. lra.
Defined.

(** On the frame whose 1976 election was lopsided, the prior mean is the
    2012 logit. *)
Lemma prior_from_history_witness :
  Forall (fun row => length row = 20%nat) Example.skewed_frame /\
  prior_mean Example.skewed_frame
  = Ok (tabulate 51 (logit_2012 Example.skewed_frame)).
Proof.
  split; [exact skewed_frame_shape|].
  exact (proj1 (prior_from_history Example.skewed_frame skewed_frame_shape)).
Defined.

(** C1 as stated fails: on that frame the prior mean is not the mean of the
    ten logit vectors, and the prior covariance is not their empirical
    covariance. *)
Lemma prior_is_not_the_sample_moments :
  prior_mean Example.skewed_frame <> Ok (spec_mean_vector Example.skewed_frame) /\
  prior_covariance Example.skewed_frame
  <> Ok (spec_covariance_matrix Example.skewed_frame).
Proof.
  split.
  - rewrite (prior_mean_entries _ skewed_frame_shape). intro H. apply Ok_inj in H.
    apply (f_equal (fun v => nth 0 v 0)) in H. unfold spec_mean_vector in H.
    change (length Example.skewed_frame) with 51%nat in H.
    rewrite !nth_tabulate in H by lia.
    rewrite skewed_frame_sample_mean, skewed_frame_logit_2012 in H.
    pose proof ln_2_pos. lra.
  - rewrite (prior_covariance_entries _ skewed_frame_shape). intro H. apply Ok_inj in H.
    apply (f_equal (fun m => nth 0 (nth 0 m []) 0)) in H.
    unfold spec_covariance_matrix in H.
    change (length Example.skewed_frame) with 51%nat in H.
    rewrite !nth_tabulate in H by lia. simpl in H. lra.
Qed.

(** ** The scoring loop with a constant estimator *)

Ltac run_loop_pass :=
  cbn -[Rgtb prior_entropy uniform_poll Example.swing_poll model].

Lemma example_scores_positive : forall ape pm pc,
  prior_entropy Example.dem_wins - ape > 0 ->
  score_strategies Example.electoral_college_votes Example.dem_wins Example.swing_poll
    unit (Example.posterior_eig ape) Example.draw
    Example.clear_param_store pm pc tt
  = Ok (mk_loop_state unit
          [("Florida"%string, prior_entropy Example.dem_wins - ape);
           ("DC"%string, prior_entropy Example.dem_wins - ape);
           ("Uniform"%string, prior_entropy Example.dem_wins - ape);
           ("Swing"%string, prior_entropy Example.dem_wins - ape)]
          (Some "Florida"%string) (prior_entropy Example.dem_wins - ape) tt).
Proof.
  intros ape pm pc H.
  unfold score_strategies, poll_strategies, poll_in_florida, poll_in_dc.
  run_loop_pass. rewrite Rgtb_true by lra.
  run_loop_pass. rewrite Rgtb_false by lra.
  run_loop_pass. rewrite Rgtb_false by lra.
  run_loop_pass. rewrite Rgtb_false by lra.
  reflexivity.
Qed.

Lemma example_scores_nonpositive : forall ape pm pc,
  prior_entropy Example.dem_wins - ape <= 0 ->
  score_strategies Example.electoral_college_votes Example.dem_wins Example.swing_poll
    unit (Example.posterior_eig ape) Example.draw
    Example.clear_param_store pm pc tt
  = Ok (mk_loop_state unit
          [("Florida"%string, prior_entropy Example.dem_wins - ape);
           ("DC"%string, prior_entropy Example.dem_wins - ape);
           ("Uniform"%string, prior_entropy Example.dem_wins - ape);
           ("Swing"%string, prior_entropy Example.dem_wins - ape)]
          None 0 tt).
Proof.
  intros ape pm pc H.
  unfold score_strategies, poll_strategies, poll_in_florida, poll_in_dc.
  run_loop_pass. rewrite Rgtb_false by lra.
  run_loop_pass. rewrite Rgtb_false by lra.
  run_loop_pass. rewrite Rgtb_false by lra.
  run_loop_pass. rewrite Rgtb_false by lra.
  reflexivity.
Qed.

Lemma constant_scores : forall (e : R) s v,
  Dict.get [("Florida"%string, e); ("DC"%string, e);
            ("Uniform"%string, e); ("Swing"%string, e)] s = Ok v ->
  v = e.
Proof.
  intros e s v H. simpl in H.
  repeat (destruct (String.eqb s _); [congruence|]). discriminate.
Qed.

(** C2 as stated fails: when the estimator returns one more than the prior
    entropy for every allocation, every score is -1, the loop ends with
    [best_strategy] None, and no strategy is selected at all. *)
Lemma selection_without_positive_score :
  exists st,
    score_strategies Example.electoral_college_votes Example.dem_wins Example.swing_poll
      unit (Example.posterior_eig (prior_entropy Example.dem_wins + 1))
      Example.draw Example.clear_param_store [] [] tt
    = Ok st /\
    best_strategy unit st = None /\
    ~ picks_maximum unit st.
Proof.
  eexists. split; [apply example_scores_nonpositive; lra|].
  split; [reflexivity|].
  intros (b & vb & Hb & _). simpl in Hb. discriminate.
Qed.

(** With an estimator that returns one less than the prior entropy, every
    score is 1 and the first strategy is selected. *)
Lemma selection_picks_positive_maximum_witness :
  exists st,
    score_strategies Example.electoral_college_votes Example.dem_wins Example.swing_poll
      unit (Example.posterior_eig (prior_entropy Example.dem_wins - 1))
      Example.draw Example.clear_param_store [] [] tt
    = Ok st /\
    some_positive_score unit st /\
    picks_maximum unit st.
Proof.
  destruct (selection_picks_positive_maximum Example.electoral_college_votes
              Example.dem_wins Example.swing_poll unit
              (Example.posterior_eig (prior_entropy Example.dem_wins - 1))
              Example.draw Example.clear_param_store [] [] tt)
    as (st & Hst & _ & Hmax).
  exists st. split; [exact Hst|].
  assert (Hpos : some_positive_score unit st).
  { rewrite example_scores_positive in Hst by lra. apply Ok_inj in Hst. subst st.
    exists "Florida"%string, (prior_entropy Example.dem_wins
                              - (prior_entropy Example.dem_wins - 1)).
    split; [reflexivity | lra]. }
  split; [exact Hpos | exact (Hmax Hpos)].
Defined.

(** With every score at -1 nothing is selected and the next cell raises;
    with every score at 1 the four strategies tie and the first one,
    Florida, is selected. *)
Lemma selection_none_and_ties_witness :
  (exists st,
     score_strategies Example.electoral_college_votes Example.dem_wins Example.swing_poll
       unit (Example.posterior_eig (prior_entropy Example.dem_wins + 1))
       Example.draw Example.clear_param_store [] [] tt
     = Ok st /\
     best_strategy unit st = None /\
     retrain Example.electoral_college_votes Example.swing_poll unit
       (Example.posterior_eig (prior_entropy Example.dem_wins + 1))
       Example.draw Example.clear_param_store [] [] st
     = Raised KeyError) /\
  (exists st,
     score_strategies Example.electoral_college_votes Example.dem_wins Example.swing_poll
       unit (Example.posterior_eig (prior_entropy Example.dem_wins - 1))
       Example.draw Example.clear_param_store [] [] tt
     = Ok st /\
     some_positive_score unit st /\
     best_strategy unit st = Some "Florida"%string).
Proof.
  split.
  - destruct (selection_none_and_ties Example.electoral_college_votes
                Example.dem_wins Example.swing_poll unit
                (Example.posterior_eig (prior_entropy Example.dem_wins + 1))
                Example.draw Example.clear_param_store [] [] tt)
      as (st & Hst & Hnone & _).
    exists st. split; [exact Hst|]. apply Hnone.
    rewrite example_scores_nonpositive in Hst by lra. apply Ok_inj in Hst. subst st.
    intros s v Hv. apply constant_scores in Hv. lra.
  - destruct (selection_none_and_ties Example.electoral_college_votes
                Example.dem_wins Example.swing_poll unit
                (Example.posterior_eig (prior_entropy Example.dem_wins - 1))
                Example.draw Example.clear_param_store [] [] tt)
      as (st & Hst & _ & Hsome & _).
    exists st. split; [exact Hst|].
    assert (Hscores : forall s v, Dict.get (eigs unit st) s = Ok v ->
              v = prior_entropy Example.dem_wins - (prior_entropy Example.dem_wins - 1)).
    { rewrite example_scores_positive in Hst by lra. apply Ok_inj in Hst. subst st.
      intros s v Hv. apply constant_scores in Hv. exact Hv. }
    assert (Hpos : some_positive_score unit st).
    { rewrite example_scores_positive in Hst by lra. apply Ok_inj in Hst. subst st.
      exists "Florida"%string, (prior_entropy Example.dem_wins
                                - (prior_entropy Example.dem_wins - 1)).
      split; [reflexivity | lra]. }
    split; [exact Hpos|].
    destruct (Hsome Hpos) as (b & Hb & pre & post & vb & Hd & Hg & Hpre & _).
    rewrite Hb. f_equal.
    destruct pre as [|s pre].
    + simpl in Hd. injection Hd as <- _. reflexivity.
    + exfalso. destruct (Hpre s (or_introl eq_refl)) as (v & Hv & Hlt).
      apply Hscores in Hv. apply Hscores in Hg. lra.
Defined.

(** With every score at 1, the first strategy wins the four-way tie. *)
Lemma tie_goes_to_the_first :
  exists st,
    score_strategies Example.electoral_college_votes Example.dem_wins Example.swing_poll
      unit (Example.posterior_eig (prior_entropy Example.dem_wins - 1))
      Example.draw Example.clear_param_store [] [] tt
    = Ok st /\
    best_strategy unit st = Some "Florida"%string.
Proof.
  eexists. split; [apply example_scores_positive; lra | reflexivity].
Qed.

(** The score recorded for Florida with a constant estimator. *)
Lemma recorded_eig_scores_witness :
  exists st,
    score_strategies Example.electoral_college_votes Example.dem_wins Example.swing_poll
      unit (Example.posterior_eig 2)
      Example.draw Example.clear_param_store [] [] tt
    = Ok st /\
    Dict.get (eigs unit st) "Florida" = Ok (prior_entropy Example.dem_wins - 2).
Proof.
  destruct (recorded_eig_scores Example.electoral_college_votes
              Example.dem_wins Example.swing_poll unit
              (Example.posterior_eig 2)
              Example.draw Example.clear_param_store [] [] tt)
    as (_ & st & ps & Hst & Hps & Hall).
  exists st. split; [exact Hst|].
  unfold poll_strategies, poll_in_florida, poll_in_dc in Hps.
  cbn -[uniform_poll Example.swing_poll] in Hps. apply Ok_inj in Hps. subst ps.
  destruct (Hall [] "Florida"%string _ _ eq_refl) as (st_pre & g & w1 & _ & _ & _ & _ & Hget).
  exact Hget.
Defined.

(** ** Runs of the model on sample data *)

Lemma uniform_poll_nonnegative : Forall (fun n => 0 <= n) uniform_poll.
Proof.
  unfold uniform_poll, scale, ones. rewrite map_repeat.
  apply Forall_repeat_intro. replace (1000 / 51)%Z with 19%Z by reflexivity. lra.
Qed.

Lemma model_generative_structure_witness :
  Forall (fun row => length row = 20%nat) Example.frame /\
  length Example.frame = 51%nat /\
  length Example.electoral_college_votes = 51%nat /\
  length uniform_poll = 51%nat /\
  Forall (fun n => 0 <= n) uniform_poll /\
  exists pm pc tr y w alpha,
    prior_mean Example.frame = Ok pm /\
    prior_covariance Example.frame = Ok pc /\
    exec (model Example.electoral_college_votes pm pc uniform_poll) tr (Ok (y, w, alpha)).
Proof.
  split; [exact frame_shape|]. split; [reflexivity|]. split; [reflexivity|].
  split; [reflexivity|]. split; [exact uniform_poll_nonnegative|].
  destruct (model_generative_structure Example.electoral_college_votes Example.frame
              uniform_poll frame_shape eq_refl eq_refl eq_refl uniform_poll_nonnegative)
    as (pm & pc & Hpm & Hpc & _ & _ & (tr & y & w & alpha & Hrun)).
  exists pm, pc, tr, y, w, alpha. split; [exact Hpm|]. split; [exact Hpc|]. exact Hrun.
Defined.

(** Two runs on one state with alpha = 1, polling 10 and 20 people and
    hearing 0 and 5 Democrats: the winner is the same. *)
Lemma winner_determined_by_alpha_witness :
  [1] = [1] /\
  exists tr1 tr2 w1 w2,
    exec (model [1%nat] [0] [[1]] [10]) tr1 (Ok ([0], w1, [1])) /\
    exec (model [1%nat] [0] [[1]] [20]) tr2 (Ok ([5], w2, [1])) /\
    w1 = w2 /\
    nth_error tr2 2 = nth_error tr1 2.
Proof.
  split; [reflexivity|].
  destruct (election_winner_total [1%nat] [1] eq_refl) as [w Hw].
  assert (H1 : exec (model [1%nat] [0] [[1]] [10])
                 (model_trace [0] [[1]] [10] [1] [0] w false) (Ok ([0], w, [1]))).
  { apply exec_model_intro; [reflexivity | | exact Hw].
    constructor; [|constructor]. exists 0%nat. simpl. lra. }
  assert (H2 : exec (model [1%nat] [0] [[1]] [20])
                 (model_trace [0] [[1]] [20] [1] [5] w false) (Ok ([5], w, [1]))).
  { apply exec_model_intro; [reflexivity | | exact Hw].
    constructor; [|constructor]. exists 5%nat. simpl. lra. }
  destruct (proj2 (winner_determined_by_alpha [1%nat] [1] [1] eq_refl)
              _ _ _ _ _ _ _ _ _ _ H1 H2) as (_ & Hw12 & _ & Htr & _).
  eexists. eexists. exists w, w.
  split; [exact H1|]. split; [exact H2|]. split; [exact Hw12 | exact Htr].
Defined.

(** ** A run of the whole notebook on sample data *)

Lemma exec_conditioned_model_intro : forall ecv pm pc ta d y w,
  support (BinomialEvent d ta) y ->
  election_winner ecv ta = Ok w ->
  exec (conditioned_model ecv pm pc ta d) (model_trace pm pc d ta y w true)
       (Ok (y, w, ta)).
Proof.
  intros ecv pm pc ta d y w Hy Hw. unfold conditioned_model, model, model_trace.
  simpl. apply exec_observe. apply exec_draw; [exact Hy|].
  rewrite Hw. simpl. apply exec_draw; [reflexivity|]. apply exec_ret.
Qed.

Lemma example_guide_shaped : is_OutcomePredictor Example.guide.
Proof. exact (new_OutcomePredictor_shaped unit Example.draw tt). Qed.

Lemma linear_total : forall l x,
  linear_shaped l -> length x = in_features l ->
  exists z, linear l x = Ok z /\ length z = out_features l.
Proof.
  intros l x Hs Hx. unfold linear. rewrite Hx, Nat.eqb_refl.
  eexists. split; [reflexivity|].
  destruct Hs as (Hw & _ & Hb).
  rewrite length_map2; rewrite length_map; congruence.
Qed.

Lemma q_w_total : forall g y,
  is_OutcomePredictor g -> length y = 51%nat -> exists q, q_w g y = Ok q.
Proof.
  intros g y (S1 & I1 & O1 & S2 & I2 & O2 & S3 & I3 & O3) Hy.
  unfold q_w, compute_dem_probability.
  destruct (linear_total (h1 g) y S1) as (z1 & -> & L1); [congruence|]. cbn [bind].
  destruct (linear_total (h2 g) (map relu z1) S2) as (z2 & -> & L2);
    [rewrite length_map; congruence|]. cbn [bind].
  destruct (linear_total (h3 g) (map relu z2) S3) as (z & -> & L3);
    [rewrite length_map; congruence|]. cbn [bind].
  rewrite O3 in L3. destruct z as [|z0 [|z' zs]]; try discriminate.
  eexists. reflexivity.
Qed.

Lemma example_notebook_run :
  exists ba ta tr y q,
    notebook_run Example.electoral_college_votes Example.frame Example.test_data
      Example.dem_wins Example.swing_poll unit
      (Example.posterior_eig (prior_entropy Example.dem_wins - 1))
      Example.draw Example.clear_param_store
      tt ba ta Example.guide tr y q.
Proof.
  pose proof (prior_mean_entries _ frame_shape) as Hpm.
  pose proof (prior_covariance_entries _ frame_shape) as Hpc.
  set (pm := tabulate (length Example.frame) (logit_2012 Example.frame)) in *.
  set (pc := tabulate (length Example.frame) _) in Hpc.
  assert (Hta : true_alpha Example.test_data
                = Ok (map (fun row => ln (nth 0 row 0 / nth 1 row 0)) Example.test_data)).
  { apply log_ratio_ok. apply Forall_repeat_intro. reflexivity. }
  set (ta := map (fun row => ln (nth 0 row 0 / nth 1 row 0)) Example.test_data) in *.
  destruct (election_winner_total Example.electoral_college_votes ta) as [w Hw].
  { unfold ta. rewrite length_map. reflexivity. }
  assert (Hre : exists ba,
            retrain Example.electoral_college_votes Example.swing_poll unit
              (Example.posterior_eig (prior_entropy Example.dem_wins - 1))
              Example.draw Example.clear_param_store pm pc
              (mk_loop_state unit
                 [("Florida"%string, prior_entropy Example.dem_wins
                                     - (prior_entropy Example.dem_wins - 1));
                  ("DC"%string, prior_entropy Example.dem_wins
                                - (prior_entropy Example.dem_wins - 1));
                  ("Uniform"%string, prior_entropy Example.dem_wins
                                     - (prior_entropy Example.dem_wins - 1));
                  ("Swing"%string, prior_entropy Example.dem_wins
                                   - (prior_entropy Example.dem_wins - 1))]
                 (Some "Florida"%string)
                 (prior_entropy Example.dem_wins - (prior_entropy Example.dem_wins - 1)) tt)
            = Ok (ba, Example.guide, tt) /\
            length ba = 51%nat /\ Forall (fun n => 0 <= n) ba).
  { eexists. split; [reflexivity|]. split; [reflexivity|].
    repeat (apply Forall_cons; [lra|]). apply Forall_nil. }
  destruct Hre as (ba & Hre & Lba & Pba).
  destruct (q_w_total Example.guide (map (fun _ => 0) ba) example_guide_shaped) as [q Hq].
  { rewrite length_map. exact Lba. }
  exists ba, ta, (model_trace pm pc ba ta (map (fun _ => 0) ba) w true),
    (map (fun _ => 0) ba), q.
  exists pm, pc. eexists. exists tt, w, ta.
  split; [exact Hpm|]. split; [exact Hpc|].
  split; [apply example_scores_positive; lra|].
  split; [exact Hre|]. split; [exact Hta|].
  split; [|exact Hq].
  apply exec_conditioned_model_intro; [|exact Hw].
  apply binomial_support_zero. exact Pba.
Qed.


(** On that run alpha is fixed to the 2016 logits and the poll is drawn
    under the chosen allocation. *)
Lemma simulated_poll_from_2016_witness :
  exists ba ta tr y q,
    notebook_run Example.electoral_college_votes Example.frame Example.test_data
      Example.dem_wins Example.swing_poll unit
      (Example.posterior_eig (prior_entropy Example.dem_wins - 1))
      Example.draw Example.clear_param_store
      tt ba ta Example.guide tr y q /\
    ta = map (fun row => ln (nth 0 row 0 / nth 1 row 0)) Example.test_data /\
    support (BinomialEvent ba ta) y.
Proof.
  destruct example_notebook_run as (ba & ta & tr & y & q & Hrun).
  destruct (simulated_poll_from_2016 _ _ _ _ _ _ _ _ _ _ _ _ _ _ _ _ Hrun)
    as (Hta & _ & _ & Hy).
  exists ba, ta, tr, y, q. split; [exact Hrun|]. split; [exact Hta | exact Hy].
Defined.

(** * Further properties on sample data *)

(** X17: a classifier of the notebook's layer sizes returns exactly one
    logit on a vector of 51 poll outcomes, and [q_w] is then its sigmoid;
    on a vector of any other size the first layer raises RuntimeError, and
    so do [q_w] and the guide. *)
Theorem classifier_input_size : forall g y,
  is_OutcomePredictor g ->
  (length y = 51%nat ->
   exists z, compute_dem_probability g y = Ok [z] /\ q_w g y = Ok (sigmoid z) /\
             forward g y = Sample "w" Scalar (BernoulliLogits z) None (fun _ => Ret tt)) /\
  (length y <> 51%nat ->
   compute_dem_probability g y = Raised RuntimeError /\
   q_w g y = Raised RuntimeError /\
   forward g y = Throw RuntimeError).
Proof.
  intros g y Hg. pose proof Hg as (S1 & I1 & O1 & S2 & I2 & O2 & S3 & I3 & O3).
  split.
  - intro Hy.
    destruct (linear_total (h1 g) y S1) as (z1 & E1 & L1); [congruence|].
    destruct (linear_total (h2 g) (map relu z1) S2) as (z2 & E2 & L2);
      [rewrite length_map; congruence|].
    destruct (linear_total (h3 g) (map relu z2) S3) as (z & E3 & L3);
      [rewrite length_map; congruence|].
    rewrite O3 in L3. destruct z as [|z0 [|z' zs]]; try discriminate.
    assert (Hc : compute_dem_probability g y = Ok [z0]).
    { unfold compute_dem_probability. rewrite E1. cbn [bind]. rewrite E2. cbn [bind].
      exact E3. }
    exists z0. split; [exact Hc|].
    split; [unfold q_w; rewrite Hc; reflexivity | unfold forward; rewrite Hc; reflexivity].
  - intro Hy.
    assert (Hc : compute_dem_probability g y = Raised RuntimeError).
    { unfold compute_dem_probability, linear. rewrite I1.
      replace (Nat.eqb (length y) 51) with false
        by (symmetry; apply Nat.eqb_neq; exact Hy).
      reflexivity. }
    split; [exact Hc|].
    split; [unfold q_w; rewrite Hc; reflexivity | unfold forward; rewrite Hc; reflexivity].
Qed.

Lemma classifier_input_size_witness :
  is_OutcomePredictor Example.guide /\
  length (repeat 0 51) = 51%nat /\
  exists z, q_w Example.guide (repeat 0 51) = Ok (sigmoid z).
Proof.
  split; [exact example_guide_shaped|]. split; [apply repeat_length|].
  destruct (proj1 (classifier_input_size Example.guide (repeat 0 51) example_guide_shaped)
              (repeat_length 0 51)) as (z & _ & Hq & _).
  exists z. exact Hq.
Defined.

(** Raising alpha in the first of two states, of three and four votes. *)
Lemma election_winner_monotone_witness :
  length [-1; 1] = length [3; 4]%nat /\
  Forall2 Rle [-1; 1] [1; 1] /\
  exists w w',
    election_winner [3; 4]%nat [-1; 1] = Ok w /\
    election_winner [3; 4]%nat [1; 1] = Ok w' /\ w <= w'.
Proof.
  assert (H : Forall2 Rle [-1; 1] [1; 1]).
  { constructor; [lra|]. constructor; [lra|]. constructor. }
  split; [reflexivity|]. split; [exact H|].
  exact (election_winner_monotone [3; 4]%nat [-1; 1] [1; 1] eq_refl H).
Defined.

Lemma election_winner_sign_only_witness :
  Forall2 (fun a a' => a > 0 <-> a' > 0) [1; -2] [5; -1] /\
  election_winner [3; 4]%nat [1; -2] = election_winner [3; 4]%nat [5; -1].
Proof.
  assert (H : Forall2 (fun a a' => a > 0 <-> a' > 0) [1; -2] [5; -1]).
  { constructor; [split; intro; lra|]. constructor; [split; intro; lra|]. constructor. }
  split; [exact H|]. exact (election_winner_sign_only [3; 4]%nat [1; -2] [5; -1] H).
Defined.

Lemma election_winner_shape_error_witness :
  length [1; 2; 3] <> length [3; 4]%nat /\
  length [1; 2; 3] <> 1%nat /\
  length [3; 4]%nat <> 1%nat /\
  election_winner [3; 4]%nat [1; 2; 3] = Raised RuntimeError.
Proof.
  assert (H1 : length [1; 2; 3] <> length [3; 4]%nat) by (simpl; lia).
  assert (H2 : length [1; 2; 3] <> 1%nat) by (simpl; lia).
  assert (H3 : length [3; 4]%nat <> 1%nat) by (simpl; lia).
  split; [exact H1|]. split; [exact H2|]. split; [exact H3|].
  exact (election_winner_shape_error [3; 4]%nat [1; 2; 3] H1 H2 H3).
Defined.

Lemma election_winner_extremes_witness :
  length [1; 1] = length [3; 4]%nat /\
  election_winner [3; 4]%nat [1; 1] = Ok 1.
Proof.
  split; [reflexivity|].
  apply (proj1 (proj2 (election_winner_extremes [3; 4]%nat [1; 1] eq_refl))).
  - constructor; [lra|]. constructor; [lra|]. constructor.
  - simpl. lra.
Defined.

Lemma prior_covariance_symmetric_witness :
  Forall (fun row => length row = 20%nat) Example.skewed_frame /\
  exists pc,
    prior_covariance Example.skewed_frame = Ok pc /\
    nth 1 (nth 0 pc []) 0 = nth 0 (nth 1 pc []) 0 /\
    1 / 100 <= nth 0 (nth 0 pc []) 0.
Proof.
  split; [exact skewed_frame_shape|].
  destruct (prior_covariance_symmetric Example.skewed_frame skewed_frame_shape)
    as (pc & Hpc & _ & _ & Hsym & Hdiag).
  exists pc. split; [exact Hpc|].
  change (length Example.skewed_frame) with 51%nat in Hsym, Hdiag.
  split; [apply Hsym; lia | apply Hdiag; lia].
Defined.

Lemma prior_covariance_positive_definite_witness :
  Forall (fun row => length row = 20%nat) Example.skewed_frame /\
  length (repeat 1 51) = length Example.skewed_frame /\
  exists pc,
    prior_covariance Example.skewed_frame = Ok pc /\
    0 < quadratic_form pc (repeat 1 51).
Proof.
  split; [exact skewed_frame_shape|]. split; [reflexivity|].
  destruct (prior_covariance_positive_definite Example.skewed_frame skewed_frame_shape)
    as (pc & Hpc & Hq).
  exists pc. split; [exact Hpc|].
  apply (Hq (repeat 1 51) eq_refl). exists 1. split; [left; reflexivity | lra].
Defined.

Lemma confidence_limits_bracket_witness :
  Forall (fun row => length row = 20%nat) Example.skewed_frame /\
  exists pm pc lo hi,
    lower_confidence_limit pm pc = Ok lo /\
    upper_confidence_limit pm pc = Ok hi /\
    nth 0 lo 0 < sigmoid (nth 0 pm 0) /\ sigmoid (nth 0 pm 0) < nth 0 hi 0.
Proof.
  split; [exact skewed_frame_shape|].
  destruct (confidence_limits_bracket Example.skewed_frame skewed_frame_shape)
    as (pm & pc & lo & hi & _ & _ & Hlo & Hhi & _ & _ & H).
  exists pm, pc, lo, hi. split; [exact Hlo|]. split; [exact Hhi|].
  change (length Example.skewed_frame) with 51%nat in H.
  destruct (H 0%nat ltac:(lia)) as (_ & H1 & H2 & _). split; assumption.
Defined.

Lemma correlation_unit_diagonal_witness :
  length [[4; 1]; [1; 9]] = 2%nat /\
  Forall (fun row => length row = 2%nat) [[4; 1]; [1; 9]] /\
  nth 1 (nth 1 (correlation [[4; 1]; [1; 9]]) []) 0 = 1.
Proof.
  assert (Hrows : Forall (fun row : list R => length row = 2%nat) [[4; 1]; [1; 9]]).
  { constructor; [reflexivity|]. constructor; [reflexivity|]. constructor. }
  assert (Hpos : forall i, (i < 2)%nat -> 0 < nth i (nth i [[4; 1]; [1; 9]] []) 0).
  { intros i Hi. destruct i as [|[|i]]; simpl; [lra | lra | lia]. }
  split; [reflexivity|]. split; [exact Hrows|].
  destruct (correlation_unit_diagonal [[4; 1]; [1; 9]] 2 eq_refl Hrows Hpos)
    as (_ & _ & Hdiag & _).
  apply Hdiag. lia.
Defined.

(** A run of the conditioned model on the uniform allocation, the 2016 vote
    being tied in every state: the first state's success probability is one
    half. *)
Lemma conditioned_success_probability_witness :
  exists ta tr r s_y probs,
    true_alpha Example.test_data = Ok ta /\
    exec (conditioned_model Example.electoral_college_votes [] [] ta uniform_poll) tr r /\
    nth_error tr 1 = Some s_y /\
    binomial_parameters s_y = Some (uniform_poll, probs) /\
    nth_error probs 0 = Some (1 / (1 + 1)).
Proof.
  assert (Hta : true_alpha Example.test_data
                = Ok (map (fun row => ln (nth 0 row 0 / nth 1 row 0)) Example.test_data)).
  { apply log_ratio_ok. apply Forall_repeat_intro. reflexivity. }
  set (ta := map (fun row => ln (nth 0 row 0 / nth 1 row 0)) Example.test_data) in *.
  destruct (election_winner_total Example.electoral_college_votes ta) as [w Hw].
  { unfold ta. rewrite length_map. reflexivity. }
  assert (Hrun : exec (conditioned_model Example.electoral_college_votes [] [] ta uniform_poll)
                   (model_trace [] [] uniform_poll ta (map (fun _ => 0) uniform_poll) w true)
                   (Ok (map (fun _ => 0) uniform_poll, w, ta))).
  { apply exec_conditioned_model_intro; [|exact Hw].
    apply binomial_support_zero. exact uniform_poll_nonnegative. }
  destruct (conditioned_success_probability Example.electoral_college_votes
              Example.test_data [] [] ta uniform_poll _ _ Hta Hrun)
    as (s_alpha & s_y & probs & _ & _ & _ & Hy & _ & _ & Hb & Hp).
  exists ta. eexists. eexists. exists s_y, probs.
  split; [exact Hta|]. split; [exact Hrun|]. split; [exact Hy|]. split; [exact Hb|].
  apply (Hp 0%nat [1; 1] eq_refl); simpl; lra.
Defined.

Lemma prior_entropy_bounds_witness :
  [1; 0; 1] <> [] /\
  Forall (fun w => w = 0 \/ w = 1) [1; 0; 1] /\
  0 <= prior_entropy [1; 0; 1] <= ln 2.
Proof.
  assert (Hne : [1; 0; 1] <> ([] : list R)) by discriminate.
  assert (H01 : Forall (fun w => w = 0 \/ w = 1) [1; 0; 1]).
  { constructor; [right; reflexivity|]. constructor; [left; reflexivity|].
    constructor; [right; reflexivity|]. constructor. }
  split; [exact Hne|]. split; [exact H01|].
  exact (proj2 (prior_entropy_bounds [1; 0; 1] Hne H01)).
Defined.

(** With every score at 1 the retraining cell runs on the first strategy's
    allocation. *)
Lemma retrain_after_scoring_witness :
  exists st b ba guide w3,
    score_strategies Example.electoral_college_votes Example.dem_wins Example.swing_poll
      unit (Example.posterior_eig (prior_entropy Example.dem_wins - 1))
      Example.draw Example.clear_param_store [] [] tt
    = Ok st /\
    some_positive_score unit st /\
    best_strategy unit st = Some b /\
    retrain Example.electoral_college_votes Example.swing_poll unit
      (Example.posterior_eig (prior_entropy Example.dem_wins - 1))
      Example.draw Example.clear_param_store [] [] st
    = Ok (ba, guide, w3).
Proof.
  destruct (retrain_after_scoring Example.electoral_college_votes
              Example.dem_wins Example.swing_poll unit
              (Example.posterior_eig (prior_entropy Example.dem_wins - 1))
              Example.draw Example.clear_param_store [] [] tt)
    as (st & Hst & Hrun & _).
  assert (Hpos : some_positive_score unit st).
  { rewrite example_scores_positive in Hst by lra. apply Ok_inj in Hst. subst st.
    exists "Florida"%string, (prior_entropy Example.dem_wins
                              - (prior_entropy Example.dem_wins - 1)).
    split; [reflexivity | lra]. }
  destruct (Hrun Hpos) as (b & ps & ba & g0 & w2 & ape & guide & w3 & Hb & _ & _ & _ & _ & _ & _ & Hre).
  exists st, b, ba, guide, w3.
  split; [exact Hst|]. split; [exact Hpos|]. split; [exact Hb | exact Hre].
Defined.

(** A frame of twenty columns is wide enough, one of nineteen is not. *)
Lemma prior_covariance_needs_twenty_columns_witness :
  Example.skewed_frame <> [] /\
  Forall (fun row => length row = 20%nat) Example.skewed_frame /\
  (exists pc, prior_covariance Example.skewed_frame = Ok pc) /\
  [repeat 1 19] <> [] /\
  Forall (fun row => length row = 19%nat) [repeat 1 19] /\
  prior_covariance [repeat 1 19] = Raised IndexError.
Proof.
  assert (Hne : Example.skewed_frame <> []) by discriminate.
  assert (Hne' : [repeat 1 19] <> ([] : matrix)) by discriminate.
  assert (Hw : Forall (fun row => length row = 19%nat) [repeat 1 19]).
  { constructor; [reflexivity | constructor]. }
  split; [exact Hne|]. split; [exact skewed_frame_shape|]. split; [|split; [exact Hne'|split; [exact Hw|]]].
  - destruct (proj1 (prior_covariance_needs_twenty_columns Example.skewed_frame 20 Hne
                       skewed_frame_shape) (Nat.le_refl 20))
      as (lg & pc & _ & Hpc & _).
    exists pc. exact Hpc.
  - apply (proj2 (prior_covariance_needs_twenty_columns [repeat 1 19] 19 Hne' Hw)). lia.
Defined.

Lemma sample_probabilities_off_half :
  Forall (fun x => x <> 1 / 2) [1 / 4; 3 / 4; 1 / 10].
Proof.
  constructor; [lra|]. constructor; [lra|]. constructor; [lra|]. constructor.
Qed.

Lemma swing_poll_total_witness :
  [1 / 4; 3 / 4; 1 / 10] <> [] /\
  Forall (fun x => x <> 1 / 2) [1 / 4; 3 / 4; 1 / 10] /\
  vsum (swing_poll_unrounded [1 / 4; 3 / 4; 1 / 10]) = 1000 /\
  vsum (swing_poll_from [1 / 4; 3 / 4; 1 / 10]) <= 1000 + 3 / 2.
Proof.
  assert (Hne : [1 / 4; 3 / 4; 1 / 10] <> ([] : list R)) by discriminate.
  split; [exact Hne|]. split; [exact sample_probabilities_off_half|].
  destruct (swing_poll_total [1 / 4; 3 / 4; 1 / 10] Hne sample_probabilities_off_half)
    as (Htot & _ & _ & Hb).
  split; [exact Htot|]. simpl length in Hb. simpl INR in Hb. lra.
Defined.

Lemma dem_prob_is_frequency_witness :
  [[1; -1]; [2; 3]] <> [] /\
  length (dem_prob 2 [[1; -1]; [2; 3]]) = 2%nat /\
  Forall (fun q => 0 <= q <= 1) (dem_prob 2 [[1; -1]; [2; 3]]).
Proof.
  assert (Hne : [[1; -1]; [2; 3]] <> ([] : matrix)) by discriminate.
  split; [exact Hne|].
  destruct (dem_prob_is_frequency 2 [[1; -1]; [2; 3]] Hne) as (Hl & Hf & _).
  split; [exact Hl | exact Hf].
Defined.
